(** * The hybrid retrieval engine of [kler/backend/app/rag_pipeline.py]

    A shallow embedding of the three retrieval classes of the RAG pipeline,
    [VectorIndex], [BM25Index] and [Retriever], and of the helper
    [chunk_by_section], with the properties their specification states
    about them and further properties that the code itself shows.

    Modelling conventions.
    - A Python [float] (and an [int] that is mixed with floats) is a real
      number: rounding, overflow, infinities and NaN are outside the model.
      [math.sqrt], [math.log] and [math.exp] are [sqrt], [ln] and [exp].
    - A Python [int] used as a count, a rank or a slice bound is a [nat] or
      a [Z].
    - Documents are dictionaries that live in a heap and are passed around
      by address, so that [id(doc)] is the address and a mutation of a
      document is seen by every holder of the reference.
    - A raised exception is the [Raise] case of [result]; a method that
      mutates [self] returns the new [self] next to its result. *)

From Stdlib Require Import Reals Lra Lia ZArith Ascii.
From stdpp Require Import base option list sorting gmap strings.

Set Warnings "-clear-no-such-hyp".

(** ** The Python fragment the pipeline is written in *)

Module Py.

Inductive exn : Set :=
| TypeError
| ValueError
| IndexError
| KeyError
| ZeroDivisionError.

Inductive result (A : Type) : Type :=
| Ok (a : A)
| Raise (e : exn).
Global Arguments Ok {A} a.
Global Arguments Raise {A} e.

Global Instance exn_eq_dec : EqDecision exn.
Proof. solve_decision. Defined.

Global Instance result_eq_dec {A} `{EqDecision A} : EqDecision (result A).
Proof. solve_decision. Defined.

Global Instance result_ret : MRet result := λ A a, Ok a.
Global Instance result_bind : MBind result := λ A B f m,
  match m with
  | Ok a => f a
  | Raise e => Raise e
  end.

Definition raises {A} (r : result A) : Prop :=
  match r with Ok _ => False | Raise _ => True end.

(** [[f(x) for x in l]] where [f] may raise: the first failure wins. *)
Fixpoint for_each {A B} (f : A → result B) (l : list A) : result (list B) :=
  match l with
  | [] => Ok []
  | x :: l' => y ← f x; ys ← for_each f l'; Ok (y :: ys)
  end.

(** Values that the fields of a document hold. *)
Inductive value : Set :=
| VNone
| VInt (n : Z)
| VStr (s : string).

Global Instance value_eq_dec : EqDecision value.
Proof. solve_decision. Defined.

Global Instance value_countable : Countable value.
Proof.
  refine (inj_countable'
    (λ v, match v with
          | VNone => inl ()
          | VInt n => inr (inl n)
          | VStr s => inr (inr s)
          end)
    (λ c, match c with
          | inl () => VNone
          | inr (inl n) => VInt n
          | inr (inr s) => VStr s
          end) _).
  by intros [].
Defined.

(** What a reference may point to: a [dict] with string keys, or an
    object of any other type. *)
Inductive object : Type :=
| ODict (fields : gmap string value)
| OOther.

Definition addr := nat.

(** The arguments a caller may pass as a query. *)
Inductive query : Type :=
| QText (s : string)
| QVector (v : list R)
| QOther.

Local Open Scope R_scope.

Global Instance Rlt_decision (x y : R) : Decision (x < y) := Rlt_dec x y.
Global Instance Rle_decision (x y : R) : Decision (x <= y) := Rle_dec x y.
Global Instance Req_decision : EqDecision R := Req_dec_T.

(** [sum(l)]: a left fold that starts from [0]. *)
Definition sum (l : list R) : R := foldl Rplus 0 l.

(** [x / y] on floats raises on a zero divisor. *)
Definition truediv (x y : R) : result R :=
  if decide (y = 0) then Raise ZeroDivisionError else Ok (x / y).

(** [list.sort] is stable.  [before x y] says that [x], met earlier in
    the list, stays ahead of [y]: [key x <= key y] for an ascending sort
    and [key x >= key y] under [reverse=True], which keeps the original
    order of equal keys as well. *)
Fixpoint insert_sorted {A} (before : A → A → bool) (x : A) (l : list A) : list A :=
  match l with
  | [] => [x]
  | y :: l' => if before x y then x :: l else y :: insert_sorted before x l'
  end.

Definition sort_with {A} (before : A → A → bool) (l : list A) : list A :=
  foldr (insert_sorted before) [] l.

Definition sort_ascending {A} (key : A → R) : list A → list A :=
  sort_with (λ x y, bool_decide (key x <= key y)).

Definition sort_descending {A} (key : A → R) : list A → list A :=
  sort_with (λ x y, bool_decide (key y <= key x)).

(** [l[:k]] for the [k > 0] the callers have checked. *)
Definition slice_to {A} (k : Z) (l : list A) : list A := take (Z.to_nat k) l.

(** [enumerate(l)] and [l[i]]. *)
Definition enumerate {A} (l : list A) : list (nat * A) := zip (seq 0 (length l)) l.

Definition getitem {A} (l : list A) (i : nat) : result A :=
  match l !! i with
  | Some x => Ok x
  | None => Raise IndexError
  end.

End Py.
Import Py.

Abbreviation heap := (gmap addr object).

(** [isinstance(document, dict)], then ["content" in document], then
    [isinstance(document["content"], str)]: the three checks every
    [add_document] starts with, returning the content. *)
Definition checked_content (h : heap) (document : addr) : result string :=
  match h !! document with
  | Some (ODict fields) =>
      match fields !! "content" with
      | None => Raise ValueError
      | Some (VStr content) => Ok content
      | Some _ => Raise TypeError
      end
  | _ => Raise TypeError
  end.

(** ** [class VectorIndex] *)

Module VectorIndex.
Local Open Scope R_scope.

(** What an embedding function may hand back: a list of numbers, or
    anything else. *)
Inductive vector_arg : Type :=
| Numbers (v : list R)
| NotNumbers.

(** The embedding function is called on one text or on a batch. *)
Record embedder : Type := {
  embed_text : string → vector_arg;
  embed_batch : list string → list vector_arg
}.

Record t : Type := mk {
  vectors : list (list R);
  documents : list addr;
  _vector_dim : option nat;
  _distance_metric : string;
  _embedding_fn : option embedder
}.

Definition __init__ (distance_metric : string) (embedding_fn : option embedder) : result t :=
  if decide (distance_metric = "cosine" ∨ distance_metric = "euclidean")
  then Ok (mk [] [] None distance_metric embedding_fn)
  else Raise ValueError.

Definition add_vector (h : heap) (self : t) (vector : vector_arg) (document : addr)
  : result unit * t :=
  match vector with
  | NotNumbers => (Raise TypeError, self)
  | Numbers v =>
      match h !! document with
      | Some (ODict fields) =>
          if decide (fields !! "content" = None) then (Raise ValueError, self)
          else if decide (vectors self = []) then
            (Ok (), mk (vectors self ++ [v]) (documents self ++ [document])
                       (Some (length v)) (_distance_metric self) (_embedding_fn self))
          else if decide (Some (length v) ≠ _vector_dim self) then (Raise ValueError, self)
          else
            (Ok (), mk (vectors self ++ [v]) (documents self ++ [document])
                       (_vector_dim self) (_distance_metric self) (_embedding_fn self))
      | _ => (Raise TypeError, self)
      end
  end.

Definition add_document (h : heap) (self : t) (document : addr) : result unit * t :=
  match _embedding_fn self with
  | None => (Raise ValueError, self)
  | Some fn =>
      match checked_content h document with
      | Raise e => (Raise e, self)
      | Ok content => add_vector h self (embed_text fn content) document
      end
  end.

(** The loop [for vector, document in zip(vectors, documents)]: it stops
    at the first insertion that raises and keeps what was inserted. *)
Fixpoint add_vectors (h : heap) (self : t) (pairs : list (vector_arg * addr))
  : result unit * t :=
  match pairs with
  | [] => (Ok (), self)
  | (vector, document) :: rest =>
      match add_vector h self vector document with
      | (Ok _, self') => add_vectors h self' rest
      | failed => failed
      end
  end.

Definition add_documents (h : heap) (self : t) (docs : list addr) : result unit * t :=
  match _embedding_fn self with
  | None => (Raise ValueError, self)
  | Some fn =>
      if decide (docs = []) then (Ok (), self)
      else
        match for_each (checked_content h) docs with
        | Raise e => (Raise e, self)
        | Ok contents => add_vectors h self (zip (embed_batch fn contents) docs)
        end
  end.

Definition _euclidean_distance (vec1 vec2 : list R) : result R :=
  if decide (length vec1 ≠ length vec2) then Raise ValueError
  else Ok (sqrt (sum (zip_with (λ p q, (p - q) ^ 2) vec1 vec2))).

Definition _dot_product (vec1 vec2 : list R) : result R :=
  if decide (length vec1 ≠ length vec2) then Raise ValueError
  else Ok (sum (zip_with Rmult vec1 vec2)).

Definition _magnitude (vec : list R) : R :=
  sqrt (sum (map (λ x, x * x) vec)).

Definition _cosine_distance (vec1 vec2 : list R) : result R :=
  if decide (length vec1 ≠ length vec2) then Raise ValueError
  else
    let mag1 := _magnitude vec1 in
    let mag2 := _magnitude vec2 in
    if decide (mag1 = 0 ∧ mag2 = 0) then Ok 0
    else if decide (mag1 = 0 ∨ mag2 = 0) then Ok 1
    else
      dot_prod ← _dot_product vec1 vec2;
      cosine_similarity ← truediv dot_prod (mag1 * mag2);
      let cosine_similarity := Rmax (-1) (Rmin 1 cosine_similarity) in
      Ok (1 - cosine_similarity).

(** [search] reads the index and never writes it. *)
Definition search (self : t) (q : query) (k : Z) : result (list (addr * R)) :=
  if decide (vectors self = []) then Ok []
  else
    query_vector ←
      match q with
      | QText s =>
          match _embedding_fn self with
          | None => Raise ValueError
          | Some fn => Ok (embed_text fn s)
          end
      | QVector v => Ok (Numbers v)
      | QOther => Raise TypeError
      end;
    match _vector_dim self with
    | None => Ok []
    | Some dim =>
        match query_vector with
        | NotNumbers => Raise TypeError
        | Numbers qv =>
            if decide (length qv ≠ dim) then Raise ValueError
            else if decide (k ≤ 0)%Z then Raise ValueError
            else
              let dist_func :=
                if decide (_distance_metric self = "cosine")
                then _cosine_distance else _euclidean_distance in
              distances ←
                for_each (λ '(i, stored_vector),
                            distance ← dist_func qv stored_vector;
                            doc ← getitem (documents self) i;
                            Ok (distance, doc))
                         (enumerate (vectors self));
              let distances := sort_ascending fst distances in
              Ok (map (λ '(dist, doc), (doc, dist)) (slice_to k distances))
        end
    end.

End VectorIndex.

(** ** [class BM25Index] *)

Module BM25Index.
Local Open Scope R_scope.

Record t : Type := mk {
  documents : list addr;
  _corpus_tokens : list (list string);
  _doc_len : list nat;
  _doc_freqs : gmap string nat;
  _avg_doc_len : R;
  _idf : gmap string R;
  _index_built : bool;
  k1 : R;
  b : R;
  _tokenizer : string → list string
}.

(** The default tokenizer, on ASCII text: [text.lower()], then
    [re.split(r"\W+", text)], then the empty pieces dropped. *)
Definition lower_char (c : ascii) : ascii :=
  let n := nat_of_ascii c in
  if (65 <=? n)%nat && (n <=? 90)%nat then ascii_of_nat (n + 32) else c.

Fixpoint lower (text : string) : string :=
  match text with
  | EmptyString => EmptyString
  | String c rest => String (lower_char c) (lower rest)
  end.

Definition is_word_char (c : ascii) : bool :=
  let n := nat_of_ascii c in
  ((48 <=? n)%nat && (n <=? 57)%nat)
  || ((65 <=? n)%nat && (n <=? 90)%nat)
  || ((97 <=? n)%nat && (n <=? 122)%nat)
  || (n =? 95)%nat.

(** [re.split(r"\W+", text)]: [piece] is the piece being read and
    [in_separator] tells that the last character closed a piece. *)
Fixpoint re_split_nonword (text piece : string) (in_separator : bool) : list string :=
  match text with
  | EmptyString => [piece]
  | String c rest =>
      if is_word_char c then re_split_nonword rest (piece +:+ String c EmptyString) false
      else if in_separator then re_split_nonword rest piece true
      else piece :: re_split_nonword rest EmptyString true
  end.

Definition _default_tokenizer (text : string) : list string :=
  let text := lower text in
  let tokens := re_split_nonword text EmptyString false in
  filter (λ token, token ≠ EmptyString) tokens.

Definition __init__ (k1 b : R) (tokenizer : option (string → list string)) : t :=
  mk [] [] [] ∅ 0 ∅ false k1 b (default _default_tokenizer tokenizer).

(** The loop of [_update_stats_add]: a term met for the first time in the
    document raises its document frequency by one. *)
Fixpoint count_document_terms (doc_tokens : list string) (seen_in_doc : gset string)
    (doc_freqs : gmap string nat) : gmap string nat :=
  match doc_tokens with
  | [] => doc_freqs
  | token :: rest =>
      if decide (token ∈ seen_in_doc) then count_document_terms rest seen_in_doc doc_freqs
      else count_document_terms rest ({[token]} ∪ seen_in_doc)
             (<[token := (default 0 (doc_freqs !! token) + 1)%nat]> doc_freqs)
  end.

Definition _update_stats_add (self : t) (doc_tokens : list string) : t :=
  mk (documents self) (_corpus_tokens self) (_doc_len self ++ [length doc_tokens])
     (count_document_terms doc_tokens ∅ (_doc_freqs self))
     (_avg_doc_len self) (_idf self) false (k1 self) (b self) (_tokenizer self).

(** [math.log(((N - freq + 0.5) / (freq + 0.5)) + 1)].  Neither the
    division nor the logarithm can raise: see [idf_argument_positive]. *)
Definition idf_score (N freq : nat) : R :=
  ln ((INR N - INR freq + 0.5) / (INR freq + 0.5) + 1).

Definition _calculate_idf (self : t) : t :=
  let N := length (documents self) in
  mk (documents self) (_corpus_tokens self) (_doc_len self) (_doc_freqs self)
     (_avg_doc_len self) (idf_score N <$> _doc_freqs self) (_index_built self)
     (k1 self) (b self) (_tokenizer self).

Definition _build_index (self : t) : t :=
  if decide (documents self = []) then
    mk (documents self) (_corpus_tokens self) (_doc_len self) (_doc_freqs self)
       0 ∅ true (k1 self) (b self) (_tokenizer self)
  else
    let avg := INR (sum_list (_doc_len self)) / INR (length (documents self)) in
    let self := mk (documents self) (_corpus_tokens self) (_doc_len self) (_doc_freqs self)
                   avg (_idf self) (_index_built self) (k1 self) (b self) (_tokenizer self) in
    let self := _calculate_idf self in
    mk (documents self) (_corpus_tokens self) (_doc_len self) (_doc_freqs self)
       (_avg_doc_len self) (_idf self) true (k1 self) (b self) (_tokenizer self).

(** The three appends that both insertion methods perform. *)
Definition store (self : t) (document : addr) (doc_tokens : list string) : t :=
  let self := mk (documents self ++ [document]) (_corpus_tokens self ++ [doc_tokens])
                 (_doc_len self) (_doc_freqs self) (_avg_doc_len self) (_idf self)
                 (_index_built self) (k1 self) (b self) (_tokenizer self) in
  _update_stats_add self doc_tokens.

Definition add_document (h : heap) (self : t) (document : addr) : result unit * t :=
  match checked_content h document with
  | Raise e => (Raise e, self)
  | Ok content => (Ok (), store self document (_tokenizer self content))
  end.

(** The loop of [add_documents] checks and stores one document at a time:
    what was stored before a failure stays stored. *)
Fixpoint add_each (h : heap) (self : t) (docs : list addr) : result unit * t :=
  match docs with
  | [] => (Ok (), self)
  | doc :: rest =>
      match checked_content h doc with
      | Raise e => (Raise e, self)
      | Ok content => add_each h (store self doc (_tokenizer self content)) rest
      end
  end.

Definition add_documents (h : heap) (self : t) (docs : list addr) : result unit * t :=
  if decide (docs = []) then (Ok (), self)
  else
    match add_each h self docs with
    | (Ok _, self) =>
        (Ok (), mk (documents self) (_corpus_tokens self) (_doc_len self) (_doc_freqs self)
                   (_avg_doc_len self) (_idf self) false (k1 self) (b self) (_tokenizer self))
    | failed => failed
    end.

(** [collections.Counter(tokens)]. *)
Definition Counter (tokens : list string) : gmap string nat :=
  foldl (λ counts token, <[token := (default 0 (counts !! token) + 1)%nat]> counts) ∅ tokens.

(** The body of the loop [for token in query_tokens] of
    [_compute_bm25_score], with the running [score]. *)
Fixpoint accumulate_score (self : t) (doc_term_counts : gmap string nat) (doc_length : nat)
    (query_tokens : list string) (score : R) : result R :=
  match query_tokens with
  | [] => Ok score
  | token :: rest =>
      match _idf self !! token with
      | None => accumulate_score self doc_term_counts doc_length rest score
      | Some idf =>
          let term_freq := INR (default 0%nat (doc_term_counts !! token)) in
          let numerator := idf * term_freq * (k1 self + 1) in
          ratio ← truediv (INR doc_length) (_avg_doc_len self);
          let denominator := term_freq + k1 self * (1 - b self + b self * ratio) in
          contribution ← truediv numerator (denominator + 1e-9);
          accumulate_score self doc_term_counts doc_length rest (score + contribution)
      end
  end.

Definition _compute_bm25_score (self : t) (query_tokens : list string) (doc_index : nat)
  : result R :=
  doc_tokens ← getitem (_corpus_tokens self) doc_index;
  let doc_term_counts := Counter doc_tokens in
  doc_length ← getitem (_doc_len self) doc_index;
  accumulate_score self doc_term_counts doc_length query_tokens 0.

Definition default_score_normalization_factor : R := 0.1.

(** The scores of all documents, in index order; the test
    [raw_score > 1e-9] is applied by [search]. *)
Definition score_all (self : t) (query_tokens : list string) : result (list (R * addr)) :=
  for_each (λ '(i, doc), raw_score ← _compute_bm25_score self query_tokens i;
                         Ok (raw_score, doc))
           (enumerate (documents self)).

Definition normalize (score_normalization_factor : R) (entry : R * addr) : addr * R :=
  let '(raw_score, doc) := entry in (doc, exp (- score_normalization_factor * raw_score)).

(** [search] builds the stale statistics, so it returns the index too. *)
Definition search (self : t) (q : query) (k : Z) (score_normalization_factor : R)
  : result (list (addr * R)) * t :=
  if decide (documents self = []) then (Ok [], self)
  else
    match q with
    | QText query_text =>
        if decide (k ≤ 0)%Z then (Raise ValueError, self)
        else
          let self := if _index_built self then self else _build_index self in
          if decide (_avg_doc_len self = 0) then (Ok [], self)
          else
            let query_tokens := _tokenizer self query_text in
            if decide (query_tokens = []) then (Ok [], self)
            else
              match score_all self query_tokens with
              | Raise e => (Raise e, self)
              | Ok scores =>
                  let raw_scores := filter (λ entry, 1e-9 < fst entry) scores in
                  let raw_scores := sort_descending fst raw_scores in
                  let normalized_results :=
                    map (normalize score_normalization_factor) (slice_to k raw_scores) in
                  (Ok (sort_ascending snd normalized_results), self)
              end
    | _ => (Raise TypeError, self)
    end.

End BM25Index.

(** ** [class SearchIndex(Protocol)] *)

Class SearchIndex (I : Type) : Type := {
  index_add_document : heap → I → addr → result unit * I;
  index_add_documents : heap → I → list addr → result unit * I;
  index_search : I → query → Z → result (list (addr * R)) * I
}.

#[global] Instance VectorIndex_SearchIndex : SearchIndex VectorIndex.t := {
  index_add_document := VectorIndex.add_document;
  index_add_documents := VectorIndex.add_documents;
  index_search self q k := (VectorIndex.search self q k, self)
}.

#[global] Instance BM25Index_SearchIndex : SearchIndex BM25Index.t := {
  index_add_document := BM25Index.add_document;
  index_add_documents := BM25Index.add_documents;
  index_search self q k :=
    BM25Index.search self q k BM25Index.default_score_normalization_factor
}.

(** An index object of any class that follows the protocol. *)
Record index : Type := Index {
  index_type : Type;
  index_ops : SearchIndex index_type;
  index_state : index_type
}.

(** ** [class Retriever] *)

Module Retriever.
Local Open Scope R_scope.

(** The reranking function reads the candidate documents, the query text
    and [k], and answers with document identifiers. *)
Definition reranker : Type := heap → list addr → string → Z → result (list value).

Record t : Type := mk {
  _indexes : list index;
  _reranker_fn : option reranker
}.

Definition __init__ (indexes : list index) (reranker_fn : option reranker) : result t :=
  if decide (length indexes = 0%nat) then Raise ValueError
  else Ok (mk indexes reranker_fn).

(** The heap together with the number of identifiers drawn so far from
    the random source [rand]. *)
Definition world : Type := heap * nat.

(** [if "id" not in doc: doc["id"] = "".join(random.choices(...))]. *)
Definition assign_id (rand : nat → string) (w : world) (doc : addr) : result unit * world :=
  let '(h, drawn) := w in
  match h !! doc with
  | Some (ODict fields) =>
      if decide (fields !! "id" = None)
      then (Ok (), (<[doc := ODict (<["id" := VStr (rand drawn)]> fields)]> h, S drawn))
      else (Ok (), w)
  | _ => (Raise TypeError, w)
  end.

Fixpoint assign_ids (rand : nat → string) (w : world) (docs : list addr)
  : result unit * world :=
  match docs with
  | [] => (Ok (), w)
  | doc :: rest =>
      match assign_id rand w doc with
      | (Ok _, w') => assign_ids rand w' rest
      | failed => failed
      end
  end.

(** [for index in self._indexes: index.add_document(document)]. *)
Fixpoint add_to_each (h : heap) (indexes : list index) (document : addr)
  : result unit * list index :=
  match indexes with
  | [] => (Ok (), [])
  | ix :: rest =>
      match @index_add_document _ (index_ops ix) h (index_state ix) document with
      | (Ok _, st) =>
          let '(r, rest') := add_to_each h rest document in
          (r, Index _ (index_ops ix) st :: rest')
      | (Raise e, st) => (Raise e, Index _ (index_ops ix) st :: rest)
      end
  end.

Definition add_document (rand : nat → string) (w : world) (self : t) (document : addr)
  : result unit * (world * t) :=
  match assign_id rand w document with
  | (Raise e, w') => (Raise e, (w', self))
  | (Ok _, w') =>
      let '(r, indexes) := add_to_each (fst w') (_indexes self) document in
      (r, (w', mk indexes (_reranker_fn self)))
  end.

(** [for index in self._indexes: index.add_documents(documents)]. *)
Fixpoint add_batch_to_each (h : heap) (indexes : list index) (docs : list addr)
  : result unit * list index :=
  match indexes with
  | [] => (Ok (), [])
  | ix :: rest =>
      match @index_add_documents _ (index_ops ix) h (index_state ix) docs with
      | (Ok _, st) =>
          let '(r, rest') := add_batch_to_each h rest docs in
          (r, Index _ (index_ops ix) st :: rest')
      | (Raise e, st) => (Raise e, Index _ (index_ops ix) st :: rest)
      end
  end.

Definition add_documents (h : heap) (self : t) (docs : list addr) : result unit * t :=
  let '(r, indexes) := add_batch_to_each h (_indexes self) docs in
  (r, mk indexes (_reranker_fn self)).

(** [[index.search(query_text, k=k * 5) for index in self._indexes]],
    called here with the [k * 5] already computed. *)
Fixpoint search_all (indexes : list index) (q : query) (k : Z)
  : result (list (list (addr * R))) * list index :=
  match indexes with
  | [] => (Ok [], [])
  | ix :: rest =>
      match @index_search _ (index_ops ix) (index_state ix) q k with
      | (Ok results, st) =>
          match search_all rest q k with
          | (Ok others, rest') => (Ok (results :: others), Index _ (index_ops ix) st :: rest')
          | (Raise e, rest') => (Raise e, Index _ (index_ops ix) st :: rest')
          end
      | (Raise e, st) => (Raise e, Index _ (index_ops ix) st :: rest)
      end
  end.

(** [doc_ranks] is a dictionary keyed by [id(doc)], read in insertion
    order: an association list from the address to the [ranks] list, in
    which [None] is [float("inf")]. *)
Abbreviation doc_ranks := (list (addr * list (option nat))).

(** [if doc_id not in doc_ranks: doc_ranks[doc_id] = {..., "ranks":
    [float("inf")] * n}] and then [doc_ranks[doc_id]["ranks"][idx] = rank]. *)
Fixpoint set_rank (n idx rank : nat) (doc : addr) (ranks : doc_ranks) : doc_ranks :=
  match ranks with
  | [] => [(doc, <[idx := Some rank]> (replicate n None))]
  | (d, rs) :: rest =>
      if decide (d = doc) then (d, <[idx := Some rank]> rs) :: rest
      else (d, rs) :: set_rank n idx rank doc rest
  end.

(** [for rank, (doc, _) in enumerate(results)], from position [rank] on. *)
Fixpoint record_results (n idx rank : nat) (results : list (addr * R)) (ranks : doc_ranks)
  : doc_ranks :=
  match results with
  | [] => ranks
  | (doc, _) :: rest => record_results n idx (S rank) rest (set_rank n idx (S rank) doc ranks)
  end.

(** [for idx, results in enumerate(all_results)], from position [idx] on. *)
Fixpoint record_all (n idx : nat) (all_results : list (list (addr * R))) (ranks : doc_ranks)
  : doc_ranks :=
  match all_results with
  | [] => ranks
  | results :: rest => record_all n (S idx) rest (record_results n idx 0 results ranks)
  end.

(** [sum(1.0 / (k_rrf + r) for r in ranks if r != float("inf"))]; the
    divisor is at least 1 for the [k_rrf >= 0] that [search] has checked. *)
Definition calc_rrf_score (k_rrf : Z) (ranks : list (option nat)) : R :=
  let finite : list nat := omap (λ r : option nat, r) ranks in
  sum (map (λ r : nat, 1 / (IZR k_rrf + INR r)) finite).

(** Lines 294 to 310 of [search]: from the lists the indexes returned to
    the fused, sorted and truncated candidates. *)
Definition fuse (n : nat) (all_results : list (list (addr * R))) (k k_rrf : Z)
  : list (addr * R) :=
  let doc_ranks := record_all n 0 all_results [] in
  let scored_docs := map (λ '(doc, ranks), (doc, calc_rrf_score k_rrf ranks)) doc_ranks in
  let filtered_docs := filter (λ entry, 0 < snd entry) scored_docs in
  let filtered_docs := sort_descending snd filtered_docs in
  slice_to k filtered_docs.

(** [doc["id"]]. *)
Definition doc_id (h : heap) (doc : addr) : result value :=
  match h !! doc with
  | Some (ODict fields) =>
      match fields !! "id" with
      | Some v => Ok v
      | None => Raise KeyError
      end
  | _ => Raise TypeError
  end.

(** [{doc["id"]: doc for doc in docs_only}], given the identifiers read. *)
Definition make_doc_lookup (ids : list value) (docs_only : list addr) : gmap value addr :=
  foldl (λ lookup '(i, doc), <[i := doc]> lookup) ∅ (zip ids docs_only).

(** [{id(doc): score for doc, score in result}]. *)
Definition make_original_scores (candidates : list (addr * R)) : gmap addr R :=
  foldl (λ scores '(doc, score), <[doc := score]> scores) ∅ candidates.

(** The loop [for doc_id in reranked_ids]. *)
Definition collect_reranked (doc_lookup : gmap value addr) (original_scores : gmap addr R)
    (reranked_ids : list value) : list (addr * R) :=
  omap (λ doc_id, match doc_lookup !! doc_id with
                  | Some doc => Some (doc, default 0 (original_scores !! doc))
                  | None => None
                  end) reranked_ids.

(** Lines 311 to 325 of [search]. *)
Definition rerank (rand : nat → string) (w : world) (reranker_fn : reranker)
    (candidates : list (addr * R)) (query_text : string) (k : Z)
  : result (list (addr * R)) * world :=
  let docs_only := map fst candidates in
  match assign_ids rand w docs_only with
  | (Raise e, w') => (Raise e, w')
  | (Ok _, w') =>
      match for_each (doc_id (fst w')) docs_only with
      | Raise e => (Raise e, w')
      | Ok ids =>
          let doc_lookup := make_doc_lookup ids docs_only in
          match reranker_fn (fst w') docs_only query_text k with
          | Raise e => (Raise e, w')
          | Ok reranked_ids =>
              let original_scores := make_original_scores candidates in
              (Ok (collect_reranked doc_lookup original_scores reranked_ids), w')
          end
      end
  end.

Definition search (rand : nat → string) (w : world) (self : t) (q : query) (k k_rrf : Z)
  : result (list (addr * R)) * (world * t) :=
  match q with
  | QText query_text =>
      if decide (k ≤ 0)%Z then (Raise ValueError, (w, self))
      else if decide (k_rrf < 0)%Z then (Raise ValueError, (w, self))
      else
        match search_all (_indexes self) q (k * 5) with
        | (Raise e, indexes) => (Raise e, (w, mk indexes (_reranker_fn self)))
        | (Ok all_results, indexes) =>
            let self' := mk indexes (_reranker_fn self) in
            let candidates := fuse (length (_indexes self)) all_results k k_rrf in
            match _reranker_fn self with
            | None => (Ok candidates, (w, self'))
            | Some reranker_fn =>
                let '(r, w') := rerank rand w reranker_fn candidates query_text k in
                (r, (w', self'))
            end
        end
  | _ => (Raise TypeError, (w, self))
  end.

End Retriever.

(** ** RAG helper functions *)

(** The pattern of [chunk_by_section] has no special character: it
    matches a newline followed by 32 dashes. *)
Definition section_delimiter : string :=
  String "010"%char "--------------------------------".

(** [re.split] with a pattern that matches exactly the text [delimiter]:
    the text is read from left to right, a match ends the current chunk and
    the search goes on behind it.  [skip] counts the characters of a match
    still to step over. *)
Fixpoint split_on (delimiter : string) (skip : nat) (text : string) : string * list string :=
  match text with
  | EmptyString => (EmptyString, [])
  | String c rest =>
      match skip with
      | S skip' => split_on delimiter skip' rest
      | O =>
          if String.prefix delimiter text then
            let '(chunk, chunks) := split_on delimiter (String.length delimiter - 1) rest in
            (EmptyString, chunk :: chunks)
          else
            let '(chunk, chunks) := split_on delimiter 0 rest in
            (String c chunk, chunks)
      end
  end.

Definition chunk_by_section (document_text : string) : list string :=
  let '(chunk, chunks) := split_on section_delimiter 0 document_text in
  chunk :: chunks.

(** * The notions of the specification *)

Section SpecificationNotions.
Local Open Scope R_scope.


(** A call that may insert into a dense index, with the heap at the time
    of the call, and the index it leaves behind whether it raises or not. *)
Inductive vector_index_call : Type :=
| CallAddVector (h : heap) (vector : VectorIndex.vector_arg) (document : addr)
| CallAddDocument (h : heap) (document : addr)
| CallAddDocuments (h : heap) (docs : list addr).

Definition vector_index_after (self : VectorIndex.t) (c : vector_index_call) : VectorIndex.t :=
  match c with
  | CallAddVector h vector document => snd (VectorIndex.add_vector h self vector document)
  | CallAddDocument h document => snd (VectorIndex.add_document h self document)
  | CallAddDocuments h docs => snd (VectorIndex.add_documents h self docs)
  end.

(** The dimension invariant of a dense index that holds a vector. *)
Definition dimension_fixed (dim : nat) (self : VectorIndex.t) : Prop :=
  VectorIndex.vectors self ≠ []
  ∧ VectorIndex._vector_dim self = Some dim
  ∧ Forall (λ v, length v = dim) (VectorIndex.vectors self).

(** The three ways in which a document supplied to an index can lack a
    string [content]. *)
Definition not_a_dict (h : heap) (document : addr) : Prop :=
  ∀ fields, h !! document ≠ Some (ODict fields).

Definition content_missing (h : heap) (document : addr) : Prop :=
  ∃ fields, h !! document = Some (ODict fields) ∧ fields !! "content" = None.

Definition content_not_a_string (h : heap) (document : addr) : Prop :=
  ∃ fields v, h !! document = Some (ODict fields) ∧ fields !! "content" = Some v
              ∧ ∀ text, v ≠ VStr text.

Definition descending {A} (key : A → R) (x y : A) : Prop := key y <= key x.

(** The lexical indexes a program can build: a fresh index, then any
    calls of [add_document], [add_documents] and [search]. *)
Inductive bm25_reachable : BM25Index.t → Prop :=
| reach_init (k1 b : R) (tokenizer : option (string → list string)) :
    bm25_reachable (BM25Index.__init__ k1 b tokenizer)
| reach_add_document (h : heap) (self : BM25Index.t) (document : addr) :
    bm25_reachable self → bm25_reachable (snd (BM25Index.add_document h self document))
| reach_add_documents (h : heap) (self : BM25Index.t) (docs : list addr) :
    bm25_reachable self → bm25_reachable (snd (BM25Index.add_documents h self docs))
| reach_search (self : BM25Index.t) (q : query) (k : Z) (factor : R) :
    bm25_reachable self → bm25_reachable (snd (BM25Index.search self q k factor)).

(** The statistics of BM25 in the specification's words, over the token
    lists of the corpus: [tf(t,d)], [df(t)], [N], [|d|] and [avglen]. *)
Definition term_frequency (t : string) (doc_tokens : list string) : nat :=
  length (filter (λ token, token = t) doc_tokens).

Definition document_frequency (corpus : list (list string)) (t : string) : nat :=
  length (filter (λ doc_tokens, t ∈ doc_tokens) corpus).

Definition average_length (corpus : list (list string)) : R :=
  INR (sum_list (length <$> corpus)) / INR (length corpus).

(** [idf(t) = ln((N - df(t) + 0.5) / (df(t) + 0.5) + 1)]. *)
Definition spec_idf (corpus : list (list string)) (t : string) : R :=
  ln ((INR (length corpus) - INR (document_frequency corpus t) + 0.5)
      / (INR (document_frequency corpus t) + 0.5) + 1).

(** [tf(t,d) + k1 (1 - b + b |d| / avglen) + epsilon]. *)
Definition bm25_denominator (k1 b : R) (corpus : list (list string))
    (doc_tokens : list string) (t : string) : R :=
  INR (term_frequency t doc_tokens)
  + k1 * (1 - b + b * (INR (length doc_tokens) / average_length corpus))
  + 1e-9.

(** What one query token adds to the score: nothing when no document of
    the corpus holds it. *)
Definition bm25_term (k1 b : R) (corpus : list (list string))
    (doc_tokens : list string) (t : string) : R :=
  if decide (document_frequency corpus t = 0%nat) then 0
  else spec_idf corpus t * INR (term_frequency t doc_tokens) * (k1 + 1)
       / bm25_denominator k1 b corpus doc_tokens t.

Definition bm25_score (k1 b : R) (corpus : list (list string))
    (doc_tokens : list string) (query_tokens : list string) : R :=
  foldr Rplus 0 (bm25_term k1 b corpus doc_tokens <$> query_tokens).

(** What ties the stored statistics of a lexical index to its corpus. *)
Record bm25_consistent (self : BM25Index.t) : Prop := {
  consistent_documents :
    length (BM25Index.documents self) = length (BM25Index._corpus_tokens self);
  consistent_doc_len :
    BM25Index._doc_len self = length <$> BM25Index._corpus_tokens self;
  consistent_doc_freqs : ∀ t,
    BM25Index._doc_freqs self !! t
    = if decide (document_frequency (BM25Index._corpus_tokens self) t = 0%nat) then None
      else Some (document_frequency (BM25Index._corpus_tokens self) t);
  consistent_built :
    BM25Index._index_built self = true → BM25Index._build_index self = self
}.

(** The candidates that [search] of the lexical index keeps: the entries
    whose raw score exceeds [1e-9], by descending raw score, cut to [k]. *)
Definition kept_candidates (k : Z) (scores : list (R * addr)) : list (R * addr) :=
  slice_to k (sort_descending fst (filter (λ entry, 1e-9 < fst entry) scores)).

(** The 1-based rank of a document in the list an index returned, [None]
    when the list does not hold it.  Should the list hold the document
    more than once, the rank is that of its last occurrence. *)
Fixpoint rank_from (start : nat) (doc : addr) (results : list (addr * R)) : option nat :=
  match results with
  | [] => None
  | (d, _) :: rest =>
      match rank_from (S start) doc rest with
      | Some r => Some r
      | None => if decide (d = doc) then Some (S start) else None
      end
  end.

Definition rank_in (doc : addr) (results : list (addr * R)) : option nat :=
  rank_from 0 doc results.

(** What one index adds to the fusion score of a document: [1 / (k_rrf +
    rank)], and nothing when the index did not return the document. *)
Definition rrf_term (k_rrf : Z) (rank : option nat) : R :=
  match rank with
  | Some r => 1 / (IZR k_rrf + INR r)
  | None => 0
  end.

Definition rrf_score (k_rrf : Z) (all_results : list (list (addr * R))) (doc : addr) : R :=
  foldr Rplus 0 ((λ results, rrf_term k_rrf (rank_in doc results)) <$> all_results).

(** [doc_ranks[id(doc)]["ranks"]], when the key is there. *)
Fixpoint ranks_of (doc : addr) (ranks : Retriever.doc_ranks) : option (list (option nat)) :=
  match ranks with
  | [] => None
  | (d, rs) :: rest => if decide (d = doc) then Some rs else ranks_of doc rest
  end.

(** The state of [doc_ranks] once the result lists [done] are recorded
    and, of the next list, the entries [pre]. *)
Definition row_state (n : nat) (done : list (list (addr * R))) (pre : list (addr * R))
    (ranks : Retriever.doc_ranks) : Prop :=
  NoDup ranks.*1
  ∧ ∀ doc, ranks_of doc ranks
           = if decide (Forall (λ results, rank_in doc results = None) done
                        ∧ rank_in doc pre = None)
             then None
             else Some ((rank_in doc <$> done)
                        ++ rank_in doc pre :: replicate (n - S (length done)) None).

Definition table_state (n : nat) (done : list (list (addr * R)))
    (ranks : Retriever.doc_ranks) : Prop :=
  NoDup ranks.*1
  ∧ ∀ doc, ranks_of doc ranks
           = if decide (Forall (λ results, rank_in doc results = None) done)
             then None
             else Some ((rank_in doc <$> done) ++ replicate (n - length done) None).

(** The documents that [search] of the retriever scores, with their
    scores, in the order in which [doc_ranks] met them. *)
Definition scored_documents (all_results : list (list (addr * R))) (k_rrf : Z)
  : list (addr * R) :=
  (λ '(doc, ranks), (doc, Retriever.calc_rrf_score k_rrf ranks))
    <$> Retriever.record_all (length all_results) 0 all_results [].

(** An index that answers every query with the same list: the simplest
    object that follows the protocol. *)
Definition constant_index (results : list (addr * R)) : index :=
  Index unit
        {| index_add_document := λ _ self _, (Ok (), self);
           index_add_documents := λ _ self _, (Ok (), self);
           index_search := λ self _ _, (Ok results, self) |}
        ().

(** The candidate that an identifier stands for once the reranker has
    answered: the last of the candidates whose [id] field is that
    identifier, with its fusion score. *)
Definition candidate_with_id (h : heap) (candidates : list (addr * R)) (identifier : value)
  : option (addr * R) :=
  last (filter (λ candidate, Retriever.doc_id h (fst candidate) = Ok identifier) candidates).

(** A document that is a dictionary with an [id] field. *)
Definition has_id (h : heap) (doc : addr) : Prop :=
  ∃ identifier, Retriever.doc_id h doc = Ok identifier.




(** The [dist_func] that [VectorIndex.search] selects. *)
Definition dist_func (self : VectorIndex.t) : list R → list R → result R :=
  if decide (VectorIndex._distance_metric self = "cosine")
  then VectorIndex._cosine_distance else VectorIndex._euclidean_distance.


(** [add_document] of a lexical index called on the documents of a list in
    turn, stopping at the first call that raises. *)
Fixpoint lexical_add_in_turn (h : heap) (self : BM25Index.t) (docs : list addr)
  : result unit * BM25Index.t :=
  match docs with
  | [] => (Ok (), self)
  | doc :: rest =>
      match BM25Index.add_document h self doc with
      | (Ok _, self) => lexical_add_in_turn h self rest
      | failed => failed
      end
  end.

(** The same for a dense index. *)
Fixpoint dense_add_in_turn (h : heap) (self : VectorIndex.t) (docs : list addr)
  : result unit * VectorIndex.t :=
  match docs with
  | [] => (Ok (), self)
  | doc :: rest =>
      match VectorIndex.add_document h self doc with
      | (Ok _, self) => dense_add_in_turn h self rest
      | failed => failed
      end
  end.
(** What a call may do to the documents: give a dictionary without an
    [id] field such a field.  Every other field of every dictionary, every
    dictionary that has an [id], and every other object stay as they were. *)
Definition only_ids_added (h h' : heap) : Prop :=
  ∀ a, match h !! a with
       | Some (ODict fields) =>
           ∃ fields', h' !! a = Some (ODict fields')
                      ∧ (∀ key, key ≠ "id" → fields' !! key = fields !! key)
                      ∧ (is_Some (fields !! "id") → fields' = fields)
       | other => h' !! a = other
       end.

(** An index after [add_document], and after [add_documents], whether the
    call raised or not. *)
Definition index_after_add_document (h : heap) (document : addr) (ix : index) : index :=
  Index _ (index_ops ix) (snd (@index_add_document _ (index_ops ix) h (index_state ix) document)).

Definition index_after_add_documents (h : heap) (docs : list addr) (ix : index) : index :=
  Index _ (index_ops ix) (snd (@index_add_documents _ (index_ops ix) h (index_state ix) docs)).



End SpecificationNotions.

(** * Properties *)

(** ** Cosine distance *)

Section CosineDistance.
Local Open Scope R_scope.
Import VectorIndex.

Lemma clamped_in_range (x : R) : -1 <= Rmax (-1) (Rmin 1 x) <= 1.
Proof.
  unfold Rmax, Rmin.
  repeat match goal with |- context [Rle_dec ?a ?b] => destruct (Rle_dec a b) end; lra.
Qed.





End CosineDistance.

(** ** The dense index: dimension and text queries *)

Section DenseIndex.
Import VectorIndex.

Lemma add_vector_keeps_dimension (dim : nat) (h : heap) (self : t) (vector : vector_arg)
    (document : addr) :
  dimension_fixed dim self → dimension_fixed dim (snd (add_vector h self vector document)).
Proof.
  intros (Hne & Hdim & Hall). unfold add_vector.
  destruct vector as [v|]; [| done].
  destruct (h !! document) as [[fields|]|]; try done.
  repeat case_decide; simpl; try done.
  split; [by destruct (vectors self) | split; [done |]].
  apply Forall_app; split; [done |]. apply Forall_singleton.
  destruct (decide (Some (length v) = _vector_dim self)) as [Heq|]; [| done].
  rewrite Hdim in Heq. by injection Heq.
Qed.

Lemma add_vectors_keeps_dimension (dim : nat) (h : heap) (pairs : list (vector_arg * addr)) :
  ∀ self, dimension_fixed dim self → dimension_fixed dim (snd (add_vectors h self pairs)).
Proof.
  induction pairs as [| [vector document] rest IH]; intros self Hfix; [done |].
  simpl. pose proof (add_vector_keeps_dimension dim h self vector document Hfix) as Hstep.
  destruct (add_vector h self vector document) as [[[]|e] self']; simpl in *; auto.
Qed.

Lemma call_keeps_dimension (dim : nat) (self : t) (c : vector_index_call) :
  dimension_fixed dim self → dimension_fixed dim (vector_index_after self c).
Proof.
  intros Hfix. destruct c as [h vector document | h document | h docs]; simpl.
  - by apply add_vector_keeps_dimension.
  - unfold add_document. destruct (_embedding_fn self); [| done].
    destruct (checked_content h document); [| done].
    by apply add_vector_keeps_dimension.
  - unfold add_documents. destruct (_embedding_fn self); [| done].
    case_decide; [done |]. destruct (for_each _ docs); [| done].
    by apply add_vectors_keeps_dimension.
Qed.

Lemma calls_keep_dimension (dim : nat) (calls : list vector_index_call) :
  ∀ self, dimension_fixed dim self → dimension_fixed dim (foldl vector_index_after self calls).
Proof.
  induction calls as [| c calls IH]; intros self Hfix; [done |].
  simpl. apply IH. by apply call_keeps_dimension.
Qed.

Lemma first_vector_fixes_dimension (h : heap) (self self' : t) (v : list R) (document : addr) :
  vectors self = [] →
  add_vector h self (Numbers v) document = (Ok (), self') →
  dimension_fixed (length v) self'.
Proof.
  intros Hempty. unfold add_vector.
  destruct (h !! document) as [[fields|]|]; try done.
  repeat case_decide; try done.
  intros [= <-]; simpl. rewrite Hempty; simpl.
  repeat split; [done |]. by apply Forall_singleton.
Qed.

(** C6.  The first vector inserted into a dense index fixes its
    dimension: after any further calls of [add_vector], [add_document] and
    [add_documents], the stored dimension is still the length of that first
    vector, every stored vector has that length, and an [add_vector] of a
    vector of another length raises and leaves the index as it was. *)
Theorem dimension_invariant (h : heap) (self self' : t) (v : list R) (document : addr)
    (calls : list vector_index_call) :
  vectors self = [] →
  add_vector h self (Numbers v) document = (Ok (), self') →
  let later := foldl vector_index_after self' calls in
  _vector_dim self' = Some (length v)
  ∧ _vector_dim later = Some (length v)
  ∧ Forall (λ stored, length stored = length v) (vectors later)
  ∧ ∀ (h' : heap) (v' : list R) (document' : addr),
      length v' ≠ length v →
      raises (fst (add_vector h' later (Numbers v') document'))
      ∧ snd (add_vector h' later (Numbers v') document') = later.
Proof.
  intros Hempty Hadd later.
  pose proof (first_vector_fixes_dimension h self self' v document Hempty Hadd) as Hfix.
  pose proof (calls_keep_dimension (length v) calls self' Hfix) as (Hne & Hdim & Hall).
  fold later in Hne, Hdim, Hall.
  split; [apply Hfix | split; [done | split; [done |]]].
  intros h' v' document' Hlen. unfold add_vector.
  destruct (h' !! document') as [[fields|]|]; try done.
  repeat case_decide; simpl; try done.
  match goal with Heq : Some _ = _vector_dim _ |- _ => rewrite Hdim in Heq end.
  congruence.
Qed.

Lemma dimension_invariant_witness :
  let h : heap := {[ 0%nat := ODict {[ "content" := VStr "text" ]} ]} in
  let self := mk [] [] None "cosine" None in
  let self' := mk [[1; 2]%R] [0%nat] (Some 2%nat) "cosine" None in
  raises (fst (add_vector h self' (Numbers [1; 2; 3]%R) 0%nat))
  ∧ _vector_dim (snd (add_vector h self' (Numbers [5; 6]%R) 0%nat)) = Some 2%nat.
Proof.
  intros h self self'.
  assert (Hadd : add_vector h self (Numbers [1; 2]%R) 0%nat = (Ok (), self')) by reflexivity.
  destruct (dimension_invariant h self self' [1; 2]%R 0%nat
              [CallAddVector h (Numbers [5; 6]%R) 0%nat] eq_refl Hadd)
    as (_ & Hlater & _ & _).
  destruct (dimension_invariant h self self' [1; 2]%R 0%nat [] eq_refl Hadd)
    as (_ & _ & _ & Hraise).
  split; [| exact Hlater].
  apply (Hraise h [1; 2; 3]%R 0%nat). simpl. lia.
Defined.

(** C8, as the specification states it, fails on the empty index: a text
    query to an empty dense index without an embedding function returns
    the empty list. *)
Lemma text_search_on_empty_index_returns :
  __init__ "cosine" None = Ok (mk [] [] None "cosine" None)
  ∧ search (mk [] [] None "cosine" None) (QText "query") 1 = Ok []
  ∧ ¬ raises (search (mk [] [] None "cosine" None) (QText "query") 1).
Proof. split; [reflexivity | split; [reflexivity | intros []]]. Qed.

(** C8, amended.  A dense index that holds a vector and was built without
    an embedding function raises on every text query, whatever [k]; the
    empty index returns the empty list instead. *)
Theorem text_search_without_embedding (self : t) (text : string) (k : Z) :
  _embedding_fn self = None →
  (vectors self ≠ [] → search self (QText text) k = Raise ValueError)
  ∧ (vectors self = [] → search self (QText text) k = Ok []).
Proof.
  intros Hnone. unfold search. rewrite Hnone.
  split; intros Hv; case_decide; done.
Qed.

Lemma text_search_without_embedding_witness :
  search (mk [[1; 0]%R] [0%nat] (Some 2%nat) "cosine" None) (QText "query") 1
  = Raise ValueError.
Proof.
  apply (text_search_without_embedding
           (mk [[1; 0]%R] [0%nat] (Some 2%nat) "cosine" None) "query" 1 eq_refl).
  done.
Defined.

End DenseIndex.

(** ** Insertion and the [content] field *)

Section ContentField.

Lemma checked_content_raises (h : heap) (document : addr) :
  not_a_dict h document ∨ content_missing h document ∨ content_not_a_string h document →
  raises (checked_content h document).
Proof.
  unfold checked_content.
  intros [Hnot | [(fields & -> & ->) | (fields & v & -> & -> & Hv)]]; [| done |].
  - destruct (h !! document) as [[fields|]|] eqn:Hd; try done. by destruct (Hnot fields).
  - destruct v; try done. by destruct (Hv s).
Qed.

Lemma for_each_raises {A B} (f : A → result B) (l : list A) (x : A) :
  x ∈ l → raises (f x) → raises (for_each f l).
Proof.
  intros Hin Hx. induction l as [| y l IH]; [by apply elem_of_nil in Hin |].
  simpl. apply elem_of_cons in Hin as [<- | Hin].
  - by destruct (f x).
  - destruct (f y); [| done]. simpl. specialize (IH Hin). by destruct (for_each f l).
Qed.

Lemma add_each_rejects (h : heap) (document : addr) (docs : list addr) :
  raises (checked_content h document) → document ∈ docs →
  ∀ self,
    raises (fst (BM25Index.add_each h self docs))
    ∧ ∃ added, BM25Index.documents (snd (BM25Index.add_each h self docs))
               = BM25Index.documents self ++ added
               ∧ document ∉ added.
Proof.
  intros Hbad. induction docs as [| doc rest IH]; intros Hin self.
  - by apply elem_of_nil in Hin.
  - simpl. destruct (checked_content h doc) as [content|e] eqn:Hdoc.
    + apply elem_of_cons in Hin as [-> | Hin]; [by rewrite Hdoc in Hbad |].
      destruct (IH Hin (BM25Index.store self doc (BM25Index._tokenizer self content)))
        as (Hraise & added & Hdocs & Hnotin).
      split; [done |]. exists (doc :: added). split.
      * rewrite Hdocs. simpl. by rewrite <- app_assoc.
      * intros [-> | ?]%elem_of_cons; [by rewrite Hdoc in Hbad | done].
    + simpl. split; [done |]. exists []. split; [by rewrite app_nil_r | apply not_elem_of_nil].
Qed.

(** C7, as the specification states it, fails on the empty string: both
    indexes store a document whose [content] is [""]. *)
Lemma empty_content_is_accepted :
  let h : heap := {[ 0%nat := ODict {[ "content" := VStr "" ]} ]} in
  let embedding_fn :=
    {| VectorIndex.embed_text := λ _, VectorIndex.Numbers [1%R];
       VectorIndex.embed_batch := map (λ _, VectorIndex.Numbers [1%R]) |} in
  let lexical := BM25Index.__init__ 1.5 0.75 None in
  let dense := VectorIndex.mk [] [] None "cosine" (Some embedding_fn) in
  fst (BM25Index.add_document h lexical 0%nat) = Ok ()
  ∧ BM25Index.documents (snd (BM25Index.add_document h lexical 0%nat)) = [0%nat]
  ∧ fst (BM25Index.add_documents h lexical [0%nat]) = Ok ()
  ∧ BM25Index.documents (snd (BM25Index.add_documents h lexical [0%nat])) = [0%nat]
  ∧ fst (VectorIndex.add_document h dense 0%nat) = Ok ()
  ∧ VectorIndex.documents (snd (VectorIndex.add_document h dense 0%nat)) = [0%nat]
  ∧ fst (VectorIndex.add_documents h dense [0%nat]) = Ok ()
  ∧ VectorIndex.documents (snd (VectorIndex.add_documents h dense [0%nat])) = [0%nat].
Proof. repeat split; reflexivity. Qed.

(** C7, amended.  A document that is not a dictionary, has no [content]
    or has a [content] that is not a string makes [add_document] and
    [add_documents] of both indexes raise, and is not stored: the lexical
    index keeps only the documents of the batch that came before it, the
    dense index keeps none of the batch. *)
Theorem insertion_requires_string_content (h : heap) (document : addr) :
  not_a_dict h document ∨ content_missing h document ∨ content_not_a_string h document →
  (∀ self, raises (fst (BM25Index.add_document h self document))
           ∧ snd (BM25Index.add_document h self document) = self)
  ∧ (∀ self docs, document ∈ docs →
       raises (fst (BM25Index.add_documents h self docs))
       ∧ ∃ added, BM25Index.documents (snd (BM25Index.add_documents h self docs))
                  = BM25Index.documents self ++ added
                  ∧ document ∉ added)
  ∧ (∀ self, raises (fst (VectorIndex.add_document h self document))
             ∧ snd (VectorIndex.add_document h self document) = self)
  ∧ (∀ self docs, document ∈ docs →
       raises (fst (VectorIndex.add_documents h self docs))
       ∧ snd (VectorIndex.add_documents h self docs) = self).
Proof.
  intros Hbad%checked_content_raises. repeat split.
  - unfold BM25Index.add_document. by destruct (checked_content h document).
  - unfold BM25Index.add_document. by destruct (checked_content h document).
  - unfold BM25Index.add_documents. case_decide as Hnil; [subst; by apply elem_of_nil in H |].
    destruct (add_each_rejects h document docs Hbad H self) as (Hraise & _).
    by destruct (BM25Index.add_each h self docs) as [[[]|e] self'].
  - unfold BM25Index.add_documents. case_decide as Hnil; [subst; by apply elem_of_nil in H |].
    destruct (add_each_rejects h document docs Hbad H self) as (Hraise & added & Hdocs & Hnotin).
    exists added. split; [| done].
    by destruct (BM25Index.add_each h self docs) as [[[]|e] self'].
  - unfold VectorIndex.add_document. destruct (VectorIndex._embedding_fn self); [| done].
    by destruct (checked_content h document).
  - unfold VectorIndex.add_document. destruct (VectorIndex._embedding_fn self); [| done].
    by destruct (checked_content h document).
  - unfold VectorIndex.add_documents. destruct (VectorIndex._embedding_fn self); [| done].
    case_decide as Hnil; [subst; by apply elem_of_nil in H |].
    pose proof (for_each_raises (checked_content h) docs document H Hbad) as Hraise.
    by destruct (for_each (checked_content h) docs).
  - unfold VectorIndex.add_documents. destruct (VectorIndex._embedding_fn self); [| done].
    case_decide as Hnil; [subst; by apply elem_of_nil in H |].
    pose proof (for_each_raises (checked_content h) docs document H Hbad) as Hraise.
    by destruct (for_each (checked_content h) docs).
Qed.

Lemma insertion_requires_string_content_witness :
  let h : heap := {[ 0%nat := ODict {[ "content" := VInt 7 ]};
                     1%nat := ODict {[ "content" := VStr "text" ]} ]} in
  raises (fst (BM25Index.add_documents h (BM25Index.__init__ 1.5 0.75 None) [1%nat; 0%nat])).
Proof.
  intros h.
  assert (Hbad : not_a_dict h 0%nat ∨ content_missing h 0%nat ∨ content_not_a_string h 0%nat).
  { right; right. exists {[ "content" := VInt 7 ]}, (VInt 7). by repeat split. }
  destruct (insertion_requires_string_content h 0%nat Hbad) as (_ & Hbatch & _).
  apply Hbatch. apply list_elem_of_further, list_elem_of_here.
Defined.

End ContentField.

(** ** [list.sort] *)

Section Sorting.
Context {A : Type} (before : A → A → bool).

Lemma insert_sorted_perm (x : A) (l : list A) : insert_sorted before x l ≡ₚ x :: l.
Proof.
  induction l as [| y l IH]; simpl; [done |].
  destruct (before x y); [done |]. rewrite IH. apply Permutation_swap.
Qed.

Lemma sort_with_perm (l : list A) : sort_with before l ≡ₚ l.
Proof.
  induction l as [| x l IH]; simpl; [done |].
  rewrite insert_sorted_perm. by rewrite IH.
Qed.

Lemma sort_with_length (l : list A) : length (sort_with before l) = length l.
Proof. apply Permutation_length, sort_with_perm. Qed.


Hypothesis before_total : ∀ x y, before x y = true ∨ before y x = true.
Hypothesis before_trans : ∀ x y z, before x y = true → before y z = true → before x z = true.

Lemma insert_sorted_sorted (x : A) (l : list A) :
  StronglySorted (λ x y, before x y = true) l →
  StronglySorted (λ x y, before x y = true) (insert_sorted before x l).
Proof.
  induction 1 as [| y l Hsorted IH Hall]; simpl.
  - repeat constructor.
  - destruct (before x y) eqn:Hxy.
    + constructor; [by constructor |].
      constructor; [done |]. eapply Forall_impl; [exact Hall |].
      intros z Hyz. by eapply before_trans.
    + constructor; [done |].
      rewrite insert_sorted_perm. constructor; [| done].
      destruct (before_total x y); congruence.
Qed.

Lemma sort_with_sorted (l : list A) :
  StronglySorted (λ x y, before x y = true) (sort_with before l).
Proof.
  induction l as [| x l IH]; simpl; [constructor |].
  by apply insert_sorted_sorted.
Qed.

End Sorting.

Section SortingByKey.
Local Open Scope R_scope.
Context {A : Type} (key : A → R).

Lemma sort_descending_sorted (l : list A) :
  StronglySorted (descending key) (sort_descending key l).
Proof.
  pose proof (sort_with_sorted (λ x y, bool_decide (key y <= key x))) as Hsorted.
  unfold sort_descending.
  assert (Hs : StronglySorted (λ x y, bool_decide (key y <= key x) = true)
                 (sort_with (λ x y, bool_decide (key y <= key x)) l)).
  { apply Hsorted.
    - intros x y. rewrite !bool_decide_eq_true. lra.
    - intros x y z. rewrite !bool_decide_eq_true. lra. }
  clear Hsorted. induction Hs as [| x l' Hs IH Hall]; constructor; [done |].
  eapply Forall_impl; [exact Hall |]. intros y Hy. by apply bool_decide_eq_true in Hy.
Qed.



Lemma sort_descending_perm (l : list A) : sort_descending key l ≡ₚ l.
Proof. apply sort_with_perm. Qed.

Lemma sort_ascending_perm (l : list A) : sort_ascending key l ≡ₚ l.
Proof. apply sort_with_perm. Qed.

End SortingByKey.

(** The sort is stable. *)

Section Stability.
Context {A : Type} (before : A → A → bool) (P : A → Prop) `{!∀ x, Decision (P x)}.
Hypothesis before_same : ∀ x y, P x → P y → before x y = true.




End Stability.


Lemma StronglySorted_take {A} (R : relation A) (l : list A) (n : nat) :
  StronglySorted R l → StronglySorted R (take n l).
Proof.
  intros Hs. rewrite <- (take_drop n l) in Hs. by apply StronglySorted_app_1_l in Hs.
Qed.

(** ** The lexical index: its statistics *)

Section LexicalStatistics.
Import BM25Index.

Example tokenizer_lowercases_and_splits :
  _default_tokenizer "The cat, sat on_the  MAT!" = ["the"; "cat"; "sat"; "on_the"; "mat"].
Proof. reflexivity. Qed.

Example tokenizer_of_punctuation : _default_tokenizer "?!..." = [].
Proof. reflexivity. Qed.

Example split_keeps_empty_pieces : re_split_nonword ",a," "" false = [""; "a"; ""].
Proof. reflexivity. Qed.

Example document_frequencies_count_once :
  count_document_terms ["a"; "b"; "a"] ∅ {[ "a" := 2%nat ]} !! "a" = Some 3%nat.
Proof. reflexivity. Qed.

Lemma count_document_terms_lookup (doc_tokens : list string) :
  ∀ (seen : gset string) (doc_freqs : gmap string nat) (t : string),
    count_document_terms doc_tokens seen doc_freqs !! t
    = if decide (t ∈ doc_tokens ∧ t ∉ seen)
      then Some (default 0 (doc_freqs !! t) + 1)%nat
      else doc_freqs !! t.
Proof.
  induction doc_tokens as [| token rest IH]; intros seen doc_freqs t;
    cbn [count_document_terms].
  - case_decide as H; [| done]. destruct H as [H _]. by apply elem_of_nil in H.
  - destruct (decide (token ∈ seen)) as [Hseen | Hnew].
    + rewrite IH. repeat case_decide; try done.
      * exfalso. set_solver.
      * exfalso. set_solver.
    + rewrite IH. destruct (decide (t = token)) as [-> | Hne].
      * rewrite decide_False by set_solver. rewrite lookup_insert_eq.
        rewrite decide_True; [done |]. set_solver.
      * rewrite lookup_insert_ne by done.
        repeat case_decide; try done; exfalso; set_solver.
Qed.

Lemma document_frequency_app (corpus : list (list string)) (doc_tokens : list string)
    (t : string) :
  document_frequency (corpus ++ [doc_tokens]) t
  = (document_frequency corpus t + if decide (t ∈ doc_tokens) then 1 else 0)%nat.
Proof.
  unfold document_frequency. rewrite filter_app, length_app. f_equal.
  rewrite filter_cons, filter_nil. by case_decide.
Qed.

Lemma store_consistent (self : t) (document : addr) (doc_tokens : list string) :
  bm25_consistent self → bm25_consistent (store self document doc_tokens).
Proof.
  intros [Hdocs Hlen Hfreqs Hbuilt]. split; simpl.
  - rewrite !length_app. simpl. lia.
  - rewrite Hlen, fmap_app. done.
  - intros term. rewrite count_document_terms_lookup, document_frequency_app, Hfreqs.
    destruct (decide (term ∈ doc_tokens)) as [Hin | Hout].
    + rewrite decide_True by set_solver.
      rewrite (decide_False (P := (_ + 1 = 0)%nat)) by lia.
      case_decide as Hz; simpl; [by rewrite Hz | done].
    + rewrite decide_False by set_solver. rewrite Nat.add_0_r. done.
  - done.
Qed.

Lemma add_each_consistent (h : heap) (docs : list addr) :
  ∀ self, bm25_consistent self → bm25_consistent (snd (add_each h self docs)).
Proof.
  induction docs as [| doc rest IH]; intros self Hself; simpl; [done |].
  destruct (checked_content h doc); [| done].
  by apply IH, store_consistent.
Qed.

Lemma _build_index_idempotent (self : t) : _build_index (_build_index self) = _build_index self.
Proof.
  unfold _build_index, _calculate_idf. by case_decide; simpl; case_decide.
Qed.

Lemma _build_index_consistent (self : t) :
  bm25_consistent self → bm25_consistent (_build_index self).
Proof.
  intros [Hdocs Hlen Hfreqs Hbuilt].
  split; [| | | intros _; apply _build_index_idempotent];
    unfold _build_index, _calculate_idf; by case_decide.
Qed.

Lemma reachable_consistent (self : t) : bm25_reachable self → bm25_consistent self.
Proof.
  induction 1 as [k1 b tokenizer | h self document _ IH | h self docs _ IH
                  | self q k factor _ IH].
  - by split.
  - unfold add_document. destruct (checked_content h document); [| done].
    by apply store_consistent.
  - unfold add_documents. case_decide; [done |].
    pose proof (add_each_consistent h docs self IH) as Heach.
    destruct (add_each h self docs) as [[[]|e] self']; simpl in *; [| done].
    destruct Heach as [Hdocs Hlen Hfreqs Hbuilt]. by split.
  - assert (Hbuilt : bm25_consistent (if _index_built self then self else _build_index self)).
    { destruct (_index_built self); [done | by apply _build_index_consistent]. }
    unfold search. case_decide; [done |].
    destruct q; try done. case_decide; [done |].
    case_decide; [done |]. case_decide; [done |].
    by destruct (score_all _ _).
Qed.

(** The index that [search] scores with is the rebuilt one, whether the
    statistics were stale or not. *)
Lemma index_used_by_search (self : t) :
  bm25_reachable self →
  (if _index_built self then self else _build_index self) = _build_index self.
Proof.
  intros Hself%reachable_consistent. destruct (_index_built self) eqn:Hb; [| done].
  symmetry. by apply Hself.
Qed.

Lemma Counter_lookup (tokens : list string) (t : string) :
  default 0%nat (Counter tokens !! t) = term_frequency t tokens.
Proof.
  unfold Counter, term_frequency.
  induction tokens as [| token tokens IH] using rev_ind; [done |].
  rewrite foldl_app, filter_app, length_app. simpl.
  rewrite filter_cons, filter_nil.
  destruct (decide (token = t)) as [-> | Hne].
  - rewrite lookup_insert_eq. simpl. by rewrite IH.
  - rewrite lookup_insert_ne by done. rewrite IH. simpl. lia.
Qed.

End LexicalStatistics.

(** ** The lexical index: the BM25 score *)

Section LexicalScore.
Import BM25Index.
Local Open Scope R_scope.


Lemma truediv_ok (x y : R) : y ≠ 0 → truediv x y = Ok (x / y).
Proof. intros Hy. unfold truediv. by rewrite decide_False. Qed.

Lemma built_average (self : t) :
  bm25_consistent self → documents self ≠ [] →
  _avg_doc_len (_build_index self) = average_length (_corpus_tokens self).
Proof.
  intros [Hdocs Hlen _ _] Hne. unfold _build_index. rewrite decide_False by done.
  simpl. unfold average_length. by rewrite Hlen, Hdocs.
Qed.

Lemma built_idf (self : t) (term : string) :
  bm25_consistent self → documents self ≠ [] →
  _idf (_build_index self) !! term
  = if decide (document_frequency (_corpus_tokens self) term = 0%nat) then None
    else Some (spec_idf (_corpus_tokens self) term).
Proof.
  intros [Hdocs _ Hfreqs _] Hne. unfold _build_index. rewrite decide_False by done.
  simpl. rewrite lookup_fmap, Hfreqs. case_decide; [done |].
  simpl. unfold idf_score, spec_idf. by rewrite Hdocs.
Qed.

Lemma accumulate_score_spec (self : t) (corpus : list (list string))
    (doc_tokens : list string) :
  (∀ term, _idf self !! term
           = if decide (document_frequency corpus term = 0%nat) then None
             else Some (spec_idf corpus term)) →
  _avg_doc_len self = average_length corpus →
  average_length corpus ≠ 0 →
  ∀ (query_tokens : list string) (score : R),
    (∀ term, term ∈ query_tokens → document_frequency corpus term ≠ 0%nat →
             bm25_denominator (k1 self) (b self) corpus doc_tokens term ≠ 0) →
    accumulate_score self (Counter doc_tokens) (length doc_tokens) query_tokens score
    = Ok (score + bm25_score (k1 self) (b self) corpus doc_tokens query_tokens).
Proof.
  intros Hidf Havg Hnz. induction query_tokens as [| token rest IH]; intros score Hden.
  - simpl. unfold bm25_score. simpl. f_equal. lra.
  - cbn [accumulate_score]. rewrite Hidf.
    assert (Hrest : ∀ term, term ∈ rest → document_frequency corpus term ≠ 0%nat →
                      bm25_denominator (k1 self) (b self) corpus doc_tokens term ≠ 0).
    { intros term Hin. apply Hden. by apply list_elem_of_further. }
    unfold bm25_score. cbn [fmap list_fmap foldr]. unfold bm25_term at 1.
    destruct (decide (document_frequency corpus token = 0%nat)) as [Hz | Hpos].
    + rewrite IH by done. f_equal. unfold bm25_score. lra.
    + rewrite Havg, truediv_ok by done.
      cbn [mbind result_bind]. rewrite Counter_lookup.
      specialize (Hden token (list_elem_of_here _ _) Hpos).
      unfold bm25_denominator in Hden |- *.
      rewrite truediv_ok by done.
      cbn [mbind result_bind]. rewrite IH by done. f_equal.
      unfold bm25_score. lra.
Qed.

Lemma document_frequency_absent (corpus : list (list string)) (term : string) :
  (∀ tokens, tokens ∈ corpus → term ∉ tokens) → document_frequency corpus term = 0%nat.
Proof.
  unfold document_frequency. induction corpus as [| tokens corpus IH]; intros Habsent; [done |].
  rewrite filter_cons, decide_False by (apply Habsent, list_elem_of_here).
  apply IH. intros tokens' Hin. by apply Habsent, list_elem_of_further.
Qed.

(** With the usual parameters no denominator of the formula vanishes. *)
Lemma bm25_denominator_positive (k1 b : R) (corpus : list (list string))
    (doc_tokens : list string) (term : string) :
  0 <= k1 → 0 <= b <= 1 → 0 < bm25_denominator k1 b corpus doc_tokens term.
Proof.
  intros Hk1 Hb. unfold bm25_denominator, average_length.
  pose proof (pos_INR (term_frequency term doc_tokens)) as Htf.
  assert (Hratio : 0 <= INR (length doc_tokens)
                        / (INR (sum_list (length <$> corpus)) / INR (length corpus))).
  { pose proof (pos_INR (length doc_tokens)) as Hd.
    pose proof (pos_INR (sum_list (length <$> corpus))) as Hs.
    pose proof (pos_INR (length corpus)) as Hn.
    unfold Rdiv. apply Rmult_le_pos; [done |].
    destruct (Req_dec (INR (sum_list (length <$> corpus)) * / INR (length corpus)) 0) as [-> | Hne].
    - rewrite Rinv_0. lra.
    - left. apply Rinv_0_lt_compat.
      assert (0 <= INR (sum_list (length <$> corpus)) * / INR (length corpus)); [| lra].
      apply Rmult_le_pos; [done |].
      destruct (Req_dec (INR (length corpus)) 0) as [-> | Hn0]; [rewrite Rinv_0; lra |].
      left. apply Rinv_0_lt_compat. lra. }
  assert (0 <= k1 * (1 - b + b * (INR (length doc_tokens)
             / (INR (sum_list (length <$> corpus)) / INR (length corpus))))); [| lra].
  apply Rmult_le_pos; [done |]. nra.
Qed.

Lemma score_of_document (self : t) (query_tokens : list string) (doc_index : nat)
    (doc_tokens : list string) :
  bm25_consistent self →
  documents self ≠ [] →
  average_length (_corpus_tokens self) ≠ 0 →
  _corpus_tokens self !! doc_index = Some doc_tokens →
  (∀ term, term ∈ query_tokens → document_frequency (_corpus_tokens self) term ≠ 0%nat →
           bm25_denominator (k1 self) (b self) (_corpus_tokens self) doc_tokens term ≠ 0) →
  _compute_bm25_score (_build_index self) query_tokens doc_index
  = Ok (bm25_score (k1 self) (b self) (_corpus_tokens self) doc_tokens query_tokens).
Proof.
  intros Hcons Hne Havg Hdoc Hden.
  assert (Hfields : _corpus_tokens (_build_index self) = _corpus_tokens self
                    ∧ _doc_len (_build_index self) = length <$> _corpus_tokens self
                    ∧ k1 (_build_index self) = k1 self ∧ b (_build_index self) = b self).
  { unfold _build_index. rewrite decide_False by done. simpl.
    repeat split. apply Hcons. }
  destruct Hfields as (Hcorpus & Hlen & Hk1 & Hb).
  unfold _compute_bm25_score, getitem. rewrite Hcorpus, Hdoc. cbn [mbind result_bind].
  rewrite Hlen, list_lookup_fmap, Hdoc. cbn [fmap option_fmap option_map mbind result_bind].
  rewrite (accumulate_score_spec (_build_index self) (_corpus_tokens self) doc_tokens);
    try done.
  - rewrite Hk1, Hb. f_equal. lra.
  - intros term. by apply built_idf.
  - by apply built_average.
  - by rewrite Hk1, Hb.
Qed.

(** C1.  On a lexical index that holds a document and whose average
    document length is not zero, the score that [search] computes for the
    document at [doc_index] is the BM25 sum of the specification, with
    [idf(t) = ln((N - df(t) + 0.5) / (df(t) + 0.5) + 1)]; the IDF table holds
    exactly the terms of the corpus, and a query token that no document
    holds adds exactly zero.  (The formula is read where its denominators
    are not zero, which [bm25_denominator_positive] shows for [k1 >= 0] and
    [0 <= b <= 1].) *)
Theorem bm25_score_formula (self : t) (query_tokens : list string) (doc_index : nat)
    (doc_tokens : list string) :
  bm25_reachable self →
  documents self ≠ [] →
  average_length (_corpus_tokens self) ≠ 0 →
  _corpus_tokens self !! doc_index = Some doc_tokens →
  (∀ term, term ∈ query_tokens → document_frequency (_corpus_tokens self) term ≠ 0%nat →
           bm25_denominator (k1 self) (b self) (_corpus_tokens self) doc_tokens term ≠ 0) →
  let built := if _index_built self then self else _build_index self in
  _compute_bm25_score built query_tokens doc_index
  = Ok (bm25_score (k1 self) (b self) (_corpus_tokens self) doc_tokens query_tokens)
  ∧ (∀ term, _idf built !! term
             = if decide (document_frequency (_corpus_tokens self) term = 0%nat) then None
               else Some (spec_idf (_corpus_tokens self) term))
  ∧ (∀ term, (∀ tokens, tokens ∈ _corpus_tokens self → term ∉ tokens) →
             _idf built !! term = None
             ∧ bm25_term (k1 self) (b self) (_corpus_tokens self) doc_tokens term = 0).
Proof.
  intros Hreach Hne Havg Hdoc Hden built.
  assert (Hbuilt : built = _build_index self) by by apply index_used_by_search.
  pose proof (reachable_consistent self Hreach) as Hcons.
  assert (Hidf : ∀ term, _idf built !! term
             = if decide (document_frequency (_corpus_tokens self) term = 0%nat) then None
               else Some (spec_idf (_corpus_tokens self) term)).
  { intros term. rewrite Hbuilt. by apply built_idf. }
  split; [| split; [done |]].
  - rewrite Hbuilt. by apply score_of_document.
  - intros term Habsent.
    pose proof (document_frequency_absent _ _ Habsent) as Hz.
    split; [by rewrite Hidf, decide_True | unfold bm25_term; by rewrite decide_True].
Qed.

Lemma bm25_score_formula_witness :
  let h : heap := {[ 0%nat := ODict {[ "content" := VStr "cat" ]} ]} in
  let self := snd (add_document h (__init__ 1.5 0.75 None) 0%nat) in
  _compute_bm25_score (_build_index self) ["cat"] 0
  = Ok (bm25_score 1.5 0.75 [["cat"]] ["cat"] ["cat"]).
Proof.
  intros h self.
  assert (Hreach : bm25_reachable self) by apply reach_add_document, reach_init.
  assert (Havg : average_length (_corpus_tokens self) ≠ 0).
  { change (_corpus_tokens self) with [["cat"]]. unfold average_length. simpl. lra. }
  apply (bm25_score_formula self ["cat"] 0%nat ["cat"] Hreach); [done | exact Havg | done |].
  intros term _ _. apply Rgt_not_eq, Rlt_gt.
  apply bm25_denominator_positive.
  - change (k1 self) with 1.5. lra.
  - change (b self) with 0.75. lra.
Defined.

End LexicalScore.

(** ** The lexical index: [search] and the normalized scores *)

Section LexicalSearch.
Import BM25Index.
Local Open Scope R_scope.

(** What [search] returns is [Ok []] on the degenerate inputs, and on the
    others the normalized and re-sorted candidates. *)
Lemma search_returns (self self' : t) (q : query) (k : Z) (factor : R)
    (results : list (addr * R)) :
  search self q k factor = (Ok results, self') →
  ∃ scores,
    results = sort_ascending snd (normalize factor <$> kept_candidates k scores)
    ∧ (scores = []
       ∨ ∃ query_text, q = QText query_text
           ∧ self' = (if _index_built self then self else _build_index self)
           ∧ score_all self' (_tokenizer self' query_text) = Ok scores).
Proof.
  assert (Hnil : ([] : list (addr * R))
                 = sort_ascending snd (normalize factor <$> kept_candidates k [])).
  { unfold kept_candidates, slice_to, sort_descending, sort_with. simpl.
    by rewrite take_nil. }
  unfold search. intros Hsearch.
  case_decide; [injection Hsearch as <- <-; exists []; split; [done | by left] |].
  destruct q as [query_text | |]; try done.
  case_decide; [done |].
  set (built := if _index_built self then self else _build_index self) in *.
  case_decide; [injection Hsearch as <- <-; exists []; split; [done | by left] |].
  case_decide; [injection Hsearch as <- <-; exists []; split; [done | by left] |].
  destruct (score_all built (_tokenizer built query_text)) as [scores|e] eqn:Hscores; [| done].
  injection Hsearch as <- <-. exists scores. split; [done |].
  right. by exists query_text.
Qed.




Lemma ln_lower_bound (x : R) : 0 < x → 1 - 1 / x <= ln x.
Proof.
  intros Hx. pose proof (exp_ineq1_le (- ln x)) as Hexp.
  rewrite exp_Ropp, exp_ln in Hexp by done. unfold Rdiv. lra.
Qed.

(** The two documents ["a a"] and ["a"] in a lexical index with the
    default parameters, and their raw scores for the query ["a"]. *)
Lemma two_documents_scores :
  let h : heap := {[ 0%nat := ODict {[ "content" := VStr "a a" ]};
                     1%nat := ODict {[ "content" := VStr "a" ]} ]} in
  let self := snd (add_documents h (__init__ 1.5 0.75 None) [0%nat; 1%nat]) in
  ∃ raw0 raw1,
    score_all (_build_index self) ["a"] = Ok [(raw0, 0%nat); (raw1, 1%nat)]
    ∧ 1e-9 < raw1 ∧ raw1 < raw0.
Proof.
  intros h self.
  set (corpus := [["a"; "a"]; ["a"]]).
  assert (Hcons : bm25_consistent self)
    by apply reachable_consistent, reach_add_documents, reach_init.
  assert (Havg : average_length (_corpus_tokens self) = 3 / 2).
  { change (_corpus_tokens self) with corpus. unfold average_length. simpl. lra. }
  assert (Hden : ∀ doc_tokens term,
             bm25_denominator (k1 self) (b self) (_corpus_tokens self) doc_tokens term ≠ 0).
  { intros doc_tokens term. apply Rgt_not_eq, Rlt_gt, bm25_denominator_positive.
    - change (k1 self) with 1.5. lra.
    - change (b self) with 0.75. lra. }
  assert (Hscore : ∀ i doc_tokens, corpus !! i = Some doc_tokens →
             _compute_bm25_score (_build_index self) ["a"] i
             = Ok (bm25_score 1.5 0.75 corpus doc_tokens ["a"])).
  { intros i doc_tokens Hi.
    apply (score_of_document self ["a"] i doc_tokens Hcons); [done | | done | ].
    - rewrite Havg. lra.
    - intros term _ _. apply Hden. }
  exists (bm25_score 1.5 0.75 corpus ["a"; "a"] ["a"]),
         (bm25_score 1.5 0.75 corpus ["a"] ["a"]).
  split.
  { unfold score_all.
    change (enumerate (documents (_build_index self))) with [(0%nat, 0%nat); (1%nat, 1%nat)].
    cbn [for_each]. rewrite (Hscore 0%nat ["a"; "a"] eq_refl), (Hscore 1%nat ["a"] eq_refl).
    reflexivity. }
  unfold bm25_score, bm25_term, bm25_denominator. cbn [fmap list_fmap foldr].
  change (document_frequency corpus "a") with 2%nat.
  change (term_frequency "a" ["a"; "a"]) with 2%nat.
  change (term_frequency "a" ["a"]) with 1%nat.
  change (average_length corpus) with (average_length (_corpus_tokens self)).
  rewrite Havg. unfold spec_idf.
  change (document_frequency corpus "a") with 2%nat.
  rewrite !decide_False by done. simpl.
  pose proof (ln_lower_bound ((1 + 1 - (1 + 1) + 0.5) / (1 + 1 + 0.5) + 1) ltac:(lra)) as Hln.
  revert Hln. generalize (ln ((1 + 1 - (1 + 1) + 0.5) / (1 + 1 + 0.5) + 1)).
  intros L HL.
  assert (0.1 <= L) by lra.
  split; lra.
Qed.

(** [search] on these two documents, for any factor: both are candidates
    and are kept in the order of their raw scores before the final sort. *)
Lemma two_documents_search (factor : R) :
  let h : heap := {[ 0%nat := ODict {[ "content" := VStr "a a" ]};
                     1%nat := ODict {[ "content" := VStr "a" ]} ]} in
  let self := snd (add_documents h (__init__ 1.5 0.75 None) [0%nat; 1%nat]) in
  ∃ raw0 raw1,
    score_all (_build_index self) ["a"] = Ok [(raw0, 0%nat); (raw1, 1%nat)]
    ∧ raw1 < raw0
    ∧ search self (QText "a") 2 factor
      = (Ok (sort_ascending snd [(0%nat, exp (- factor * raw0));
                                 (1%nat, exp (- factor * raw1))]),
         _build_index self).
Proof.
  intros h self.
  destruct two_documents_scores as (raw0 & raw1 & Hscores & Hraw1 & Hlt).
  fold h self in Hscores.
  exists raw0, raw1. split; [done |]. split; [done |].
  assert (Havg : _avg_doc_len (_build_index self) ≠ 0).
  { rewrite built_average;
      [| apply reachable_consistent, reach_add_documents, reach_init | done].
    change (_corpus_tokens self) with [["a"; "a"]; ["a"]].
    unfold average_length. simpl. lra. }
  unfold search.
  rewrite (decide_False (P := documents self = [])) by done.
  rewrite (decide_False (P := (2 ≤ 0)%Z)) by lia.
  change (_index_built self) with false. cbv iota.
  rewrite (decide_False (P := _avg_doc_len (_build_index self) = 0)) by done.
  change (_tokenizer (_build_index self) "a") with ["a"].
  rewrite (decide_False (P := ["a"] = [])) by done.
  rewrite Hscores. cbn [fst].
  rewrite !filter_cons, filter_nil. cbn [fst].
  rewrite !decide_True by lra.
  unfold sort_descending at 1. unfold sort_with, slice_to. cbn [foldr insert_sorted fst].
  rewrite bool_decide_eq_true_2 by lra.
  change (Z.to_nat 2) with 2%nat. reflexivity.
Qed.




End LexicalSearch.

(** ** The lexical index: documents without tokens *)

Section TokenlessDocuments.
Import BM25Index.
Local Open Scope R_scope.

Lemma for_each_elem {A B} (f : A → result B) (l : list A) (ys : list B) (y : B) :
  for_each f l = Ok ys → y ∈ ys → ∃ x, x ∈ l ∧ f x = Ok y.
Proof.
  revert ys. induction l as [| x l IH]; intros ys; simpl.
  - intros [= <-] Hin. by apply elem_of_nil in Hin.
  - destruct (f x) as [y'|] eqn:Hx; [| done]. simpl.
    destruct (for_each f l) as [ys'|]; [| done]. simpl.
    intros [= <-] [-> | Hin]%elem_of_cons.
    + exists x. split; [apply list_elem_of_here | done].
    + destruct (IH ys' eq_refl Hin) as (x' & Hx' & Hfx').
      exists x'. split; [by apply list_elem_of_further | done].
Qed.

Lemma enumerate_elem {A} (l : list A) (i : nat) (x : A) :
  (i, x) ∈ enumerate l → l !! i = Some x.
Proof.
  unfold enumerate.
  assert (Hgen : ∀ start, (i, x) ∈ zip (seq start (length l)) l →
                          (start <= i)%nat ∧ l !! (i - start)%nat = Some x).
  { induction l as [| y l IH]; intros start; simpl.
    - intros Hin. by apply elem_of_nil in Hin.
    - intros [[= -> ->] | Hin]%elem_of_cons.
      + split; [lia |]. by rewrite Nat.sub_diag.
      + destruct (IH (S start) Hin) as [Hle Hlook]. split; [lia |].
        replace (i - start)%nat with (S (i - S start)) by lia. done. }
  intros Hin. destruct (Hgen 0%nat Hin) as [_ Hlook]. by rewrite Nat.sub_0_r in Hlook.
Qed.





Lemma ln_upper_bound (x : R) : 0 < x → ln x <= x - 1.
Proof.
  intros Hx. pose proof (exp_ineq1_le (ln x)) as Hexp.
  rewrite exp_ln in Hexp by done. lra.
Qed.

(** An instance of the change: with the default parameters, the score of
    the document ["a"] for the query ["a"] grows when the document ["?!"],
    which has no token, is added. *)
Lemma tokenless_document_changes_a_score :
  let h : heap := {[ 0%nat := ODict {[ "content" := VStr "a" ]};
                     1%nat := ODict {[ "content" := VStr "?!" ]} ]} in
  let self := snd (add_document h (__init__ 1.5 0.75 None) 0%nat) in
  let self' := snd (add_document h self 1%nat) in
  ∃ before after,
    _compute_bm25_score (_build_index self) ["a"] 0 = Ok before
    ∧ _compute_bm25_score (_build_index self') ["a"] 0 = Ok after
    ∧ before < after.
Proof.
  intros h self self'.
  assert (Hreach : bm25_reachable self) by apply reach_add_document, reach_init.
  assert (Hreach' : bm25_reachable self') by by apply reach_add_document.
  assert (Hden : ∀ corpus doc_tokens term,
             bm25_denominator 1.5 0.75 corpus doc_tokens term ≠ 0).
  { intros corpus doc_tokens term.
    apply Rgt_not_eq, Rlt_gt, bm25_denominator_positive; lra. }
  exists (bm25_score 1.5 0.75 [["a"]] ["a"] ["a"]),
         (bm25_score 1.5 0.75 [["a"]; []] ["a"] ["a"]).
  split; [| split].
  - apply (score_of_document self ["a"] 0%nat ["a"]);
      [by apply reachable_consistent | done | | done | intros; apply Hden].
    change (_corpus_tokens self) with [["a"]]. unfold average_length. simpl. lra.
  - apply (score_of_document self' ["a"] 0%nat ["a"]);
      [by apply reachable_consistent | done | | done | intros; apply Hden].
    change (_corpus_tokens self') with [["a"]; []]. unfold average_length. simpl. lra.
  - unfold bm25_score, bm25_term, bm25_denominator, spec_idf, average_length.
    cbn [fmap list_fmap foldr].
    change (document_frequency [["a"]] "a") with 1%nat.
    change (document_frequency [["a"]; []] "a") with 1%nat.
    change (term_frequency "a" ["a"]) with 1%nat.
    rewrite !decide_False by done. simpl.
    pose proof (ln_upper_bound ((1 - 1 + 0.5) / (1 + 0.5) + 1) ltac:(lra)) as Hlow.
    pose proof (ln_lower_bound ((1 + 1 - 1 + 0.5) / (1 + 0.5) + 1) ltac:(lra)) as Hhigh.
    revert Hlow Hhigh.
    generalize (ln ((1 - 1 + 0.5) / (1 + 0.5) + 1)).
    generalize (ln ((1 + 1 - 1 + 0.5) / (1 + 0.5) + 1)).
    intros L2 L1 Hlow Hhigh.
    assert (L1 <= 1 / 3) by lra. assert (1 / 2 <= L2) by lra. lra.
Qed.



End TokenlessDocuments.

(** ** The retriever: ranks and reciprocal rank fusion *)

Section RankFusion.
Import Retriever.
Local Open Scope R_scope.

Lemma rank_from_snoc (doc d : addr) (score : R) (pre : list (addr * R)) :
  ∀ start, rank_from start doc (pre ++ [(d, score)])
           = if decide (d = doc) then Some (S (start + length pre)) else rank_from start doc pre.
Proof.
  induction pre as [| [d' s'] pre IH]; intros start; simpl.
  - case_decide; [by rewrite Nat.add_0_r | done].
  - rewrite IH. case_decide; [| done]. f_equal. lia.
Qed.

Lemma rank_from_positive (doc : addr) (results : list (addr * R)) :
  ∀ start r, rank_from start doc results = Some r → (start < r)%nat.
Proof.
  induction results as [| [d s] rest IH]; intros start r; simpl; [done |].
  destruct (rank_from (S start) doc rest) as [r'|] eqn:Hrest.
  - intros [= <-]. apply IH in Hrest. lia.
  - case_decide; [| done]. intros [= <-]. lia.
Qed.

Lemma rank_from_None (doc : addr) (results : list (addr * R)) :
  ∀ start, rank_from start doc results = None ↔ doc ∉ results.*1.
Proof.
  induction results as [| [d s] rest IH]; intros start; simpl.
  - split; [intros _; apply not_elem_of_nil | done].
  - rewrite not_elem_of_cons, <- (IH (S start)).
    destruct (rank_from (S start) doc rest); [naive_solver |].
    case_decide; naive_solver.
Qed.

Lemma ranks_of_None (doc : addr) (ranks : doc_ranks) :
  ranks_of doc ranks = None ↔ doc ∉ ranks.*1.
Proof.
  induction ranks as [| [d rs] rest IH]; simpl.
  - split; [intros _; apply not_elem_of_nil | done].
  - rewrite not_elem_of_cons. case_decide; naive_solver.
Qed.

Lemma ranks_of_elem (doc : addr) (rs : list (option nat)) (ranks : doc_ranks) :
  NoDup ranks.*1 → (doc, rs) ∈ ranks → ranks_of doc ranks = Some rs.
Proof.
  induction ranks as [| [d rs'] rest IH]; simpl; intros Hnodup Hin.
  - by apply elem_of_nil in Hin.
  - apply NoDup_cons in Hnodup as [Hnotin Hnodup].
    apply elem_of_cons in Hin as [[= <- <-] | Hin]; [by rewrite decide_True |].
    case_decide as Heq; [| by apply IH]. subst d. destruct Hnotin.
    apply list_elem_of_fmap. by exists (doc, rs).
Qed.

Lemma set_rank_keys (n idx rank : nat) (doc doc' : addr) (ranks : doc_ranks) :
  doc' ∈ (set_rank n idx rank doc ranks).*1 ↔ doc' = doc ∨ doc' ∈ ranks.*1.
Proof.
  induction ranks as [| [d rs] rest IH]; simpl.
  - rewrite list_elem_of_singleton. rewrite elem_of_nil. naive_solver.
  - case_decide as Heq; simpl; rewrite !elem_of_cons; [naive_solver |].
    rewrite IH. naive_solver.
Qed.

Lemma set_rank_NoDup (n idx rank : nat) (doc : addr) (ranks : doc_ranks) :
  NoDup ranks.*1 → NoDup (set_rank n idx rank doc ranks).*1.
Proof.
  induction ranks as [| [d rs] rest IH]; simpl; intros Hnodup.
  - apply NoDup_singleton.
  - case_decide as Heq; simpl; [done |].
    apply NoDup_cons in Hnodup as [Hnotin Hnodup].
    apply NoDup_cons. split; [| by apply IH].
    rewrite set_rank_keys. naive_solver.
Qed.

Lemma set_rank_ranks_of (n idx rank : nat) (doc doc' : addr) (ranks : doc_ranks) :
  ranks_of doc' (set_rank n idx rank doc ranks)
  = if decide (doc' = doc)
    then Some (<[idx := Some rank]> (default (replicate n None) (ranks_of doc ranks)))
    else ranks_of doc' ranks.
Proof.
  induction ranks as [| [d rs] rest IH]; simpl.
  - by repeat case_decide; simplify_eq.
  - destruct (decide (d = doc)) as [-> | Hne]; simpl.
    + by repeat case_decide; simplify_eq.
    + rewrite IH. by repeat case_decide; simplify_eq.
Qed.

Lemma all_None_replicate (doc : addr) (done : list (list (addr * R))) :
  Forall (λ results, rank_in doc results = None) done →
  rank_in doc <$> done = replicate (length done) None.
Proof.
  induction 1 as [| results done Hnone _ IH]; csimpl; [done |]. by rewrite Hnone, IH.
Qed.

Lemma insert_middle {A} (l1 l2 : list A) (x y : A) (i : nat) :
  i = length l1 → <[i := y]> (l1 ++ x :: l2) = l1 ++ y :: l2.
Proof. intros ->. rewrite insert_app_r_alt by lia. by rewrite Nat.sub_diag. Qed.

Lemma set_rank_row (n : nat) (done : list (list (addr * R))) (pre : list (addr * R))
    (d : addr) (score : R) (ranks : doc_ranks) :
  (length done < n)%nat →
  row_state n done pre ranks →
  row_state n done (pre ++ [(d, score)]) (set_rank n (length done) (S (length pre)) d ranks).
Proof.
  intros Hlt [Hnodup Hranks]. split; [by apply set_rank_NoDup |].
  intros doc. rewrite set_rank_ranks_of.
  assert (Hsnoc : rank_in doc (pre ++ [(d, score)])
                  = if decide (d = doc) then Some (S (length pre)) else rank_in doc pre).
  { unfold rank_in. by rewrite (rank_from_snoc doc d score pre 0). }
  rewrite Hsnoc. clear Hsnoc.
  destruct (decide (doc = d)) as [-> | Hne].
  - rewrite !(decide_True (P := d = d)) by done.
    rewrite decide_False by naive_solver.
    f_equal. rewrite Hranks.
    case_decide as Hnone; simpl.
    + destruct Hnone as [Hnone _]. rewrite (all_None_replicate _ _ Hnone).
      replace n with (length done + S (n - S (length done)))%nat at 1 by lia.
      rewrite replicate_add. simpl.
      apply insert_middle. by rewrite length_replicate.
    + apply insert_middle. by rewrite length_fmap.
  - rewrite (decide_False (P := d = doc)) by done. apply Hranks.
Qed.

Lemma record_results_row (n : nat) (done : list (list (addr * R))) (post : list (addr * R)) :
  (length done < n)%nat →
  ∀ pre ranks,
    row_state n done pre ranks →
    row_state n done (pre ++ post) (record_results n (length done) (length pre) post ranks).
Proof.
  intros Hlt. induction post as [| [d score] post IH]; intros pre ranks Hrow; simpl.
  - by rewrite app_nil_r.
  - replace (pre ++ (d, score) :: post) with ((pre ++ [(d, score)]) ++ post)
      by by rewrite <- app_assoc.
    replace (S (length pre)) with (length (pre ++ [(d, score)])) at 1
      by (rewrite length_app; simpl; lia).
    apply IH. by apply set_rank_row.
Qed.

Lemma table_row (n : nat) (done : list (list (addr * R))) (ranks : doc_ranks) :
  (length done < n)%nat → table_state n done ranks → row_state n done [] ranks.
Proof.
  intros Hlt [Hnodup Hranks]. split; [done |]. intros doc. rewrite Hranks.
  replace (n - length done)%nat with (S (n - S (length done))) by lia.
  simpl. repeat case_decide; naive_solver.
Qed.

Lemma row_table (n : nat) (done : list (list (addr * R))) (results : list (addr * R))
    (ranks : doc_ranks) :
  row_state n done results ranks → table_state n (done ++ [results]) ranks.
Proof.
  intros [Hnodup Hranks]. split; [done |]. intros doc. rewrite Hranks.
  rewrite length_app, fmap_app, <- app_assoc. simpl.
  replace (n - (length done + 1))%nat with (n - S (length done))%nat by lia.
  destruct (decide (Forall (λ results, rank_in doc results = None) done
                    ∧ rank_in doc results = None)) as [[Hdone Hlast] | Hsome];
    destruct (decide (Forall (λ results, rank_in doc results = None) (done ++ [results])))
      as [Hall | Hnotall]; try done.
  - destruct Hnotall. apply Forall_app. split; [done |]. by apply Forall_singleton.
  - destruct Hsome. apply Forall_app in Hall as [Hdone Hlast].
    split; [done |]. by rewrite Forall_singleton in Hlast.
Qed.

Lemma record_all_table (n : nat) (rest : list (list (addr * R))) :
  ∀ done ranks,
    (length done + length rest <= n)%nat →
    table_state n done ranks →
    table_state n (done ++ rest) (record_all n (length done) rest ranks).
Proof.
  induction rest as [| results rest IH]; intros done ranks Hlen Htable; simpl.
  - by rewrite app_nil_r.
  - simpl in Hlen.
    replace (done ++ results :: rest) with ((done ++ [results]) ++ rest)
      by by rewrite <- app_assoc.
    replace (S (length done)) with (length (done ++ [results]))
      by (rewrite length_app; simpl; lia).
    apply IH; [rewrite length_app; simpl; lia |].
    apply row_table.
    apply (record_results_row n done results ltac:(lia) [] ranks).
    apply table_row; [lia | done].
Qed.

(** The table that the two loops of [search] leave behind. *)
Lemma doc_ranks_table (all_results : list (list (addr * R))) :
  table_state (length all_results) all_results
              (record_all (length all_results) 0 all_results []).
Proof.
  apply (record_all_table (length all_results) all_results [] []); [simpl; lia |].
  split; [constructor |]. by intros doc.
Qed.

Lemma sum_foldr (l : list R) : sum l = foldr Rplus 0 l.
Proof.
  unfold sum. assert (Hgen : ∀ a, foldl Rplus a l = a + foldr Rplus 0 l).
  { induction l as [| x l IH]; intros a; simpl; [lra |]. rewrite IH. lra. }
  rewrite Hgen. lra.
Qed.

Lemma calc_rrf_score_spec (k_rrf : Z) (ranks : list (option nat)) :
  calc_rrf_score k_rrf ranks = foldr Rplus 0 (rrf_term k_rrf <$> ranks).
Proof.
  unfold calc_rrf_score. rewrite sum_foldr.
  induction ranks as [| [r|] ranks IH]; csimpl; [done | | ].
  - by rewrite IH.
  - rewrite IH. lra.
Qed.

Lemma rrf_term_bounds (k_rrf : Z) (doc : addr) (results : list (addr * R)) :
  (0 ≤ k_rrf)%Z →
  0 <= rrf_term k_rrf (rank_in doc results) <= 1 / (IZR k_rrf + 1)
  ∧ (rank_in doc results ≠ None → 0 < rrf_term k_rrf (rank_in doc results)).
Proof.
  intros Hk%IZR_le. simpl in Hk.
  assert (Hone : 0 < 1 / (IZR k_rrf + 1)) by (apply Rdiv_lt_0_compat; lra).
  destruct (rank_in doc results) as [r|] eqn:Hrank; simpl; [| split; [lra | done]].
  apply rank_from_positive in Hrank. apply lt_INR in Hrank. simpl in Hrank.
  assert (Hr : 1 <= INR r).
  { destruct r; [simpl in Hrank; lra |]. rewrite S_INR. pose proof (pos_INR r). lra. }
  assert (Hpos : 0 < 1 / (IZR k_rrf + INR r)) by (apply Rdiv_lt_0_compat; lra).
  split; [| done]. split; [lra |].
  unfold Rdiv. rewrite !Rmult_1_l. apply Rinv_le_contravar; lra.
Qed.

Lemma rrf_score_bounds (k_rrf : Z) (all_results : list (list (addr * R))) (doc : addr) :
  (0 ≤ k_rrf)%Z →
  0 <= rrf_score k_rrf all_results doc <= INR (length all_results) / (IZR k_rrf + 1)
  ∧ (¬ Forall (λ results, rank_in doc results = None) all_results →
     0 < rrf_score k_rrf all_results doc).
Proof.
  intros Hk. unfold rrf_score.
  induction all_results as [| results rest IH]; cbn [fmap list_fmap foldr length].
  - split; [unfold Rdiv; simpl; rewrite Rmult_0_l; lra |]. intros H. destruct H. constructor.
  - destruct IH as [[Hlow Hhigh] Hpos].
    destruct (rrf_term_bounds k_rrf doc results Hk) as [[Hlow' Hhigh'] Hpos'].
    split.
    + split; [lra |]. rewrite S_INR. unfold Rdiv in *. lra.
    + intros Hsome.
      destruct (decide (rank_in doc results = None)) as [Hnone | Hfound].
      * assert (0 < foldr Rplus 0 ((λ results0, rrf_term k_rrf (rank_in doc results0)) <$> rest)).
        { apply Hpos. intros Hall. destruct Hsome. by constructor. }
        lra.
      * specialize (Hpos' Hfound). lra.
Qed.

Lemma rrf_score_all_first (k_rrf : Z) (all_results : list (list (addr * R))) (doc : addr) :
  Forall (λ results, rank_in doc results = Some 1%nat) all_results →
  rrf_score k_rrf all_results doc = INR (length all_results) / (IZR k_rrf + 1).
Proof.
  unfold rrf_score.
  induction 1 as [| results rest Hfirst _ IH]; cbn [fmap list_fmap foldr length].
  - unfold Rdiv. simpl. by rewrite Rmult_0_l.
  - rewrite IH, Hfirst, S_INR. unfold rrf_term. simpl. unfold Rdiv. lra.
Qed.

Lemma search_all_spec (indexes indexes' : list index) (q : query) (k : Z)
    (all_results : list (list (addr * R))) :
  search_all indexes q k = (Ok all_results, indexes') →
  Forall2 (λ ix results,
             fst (@index_search _ (index_ops ix) (index_state ix) q k) = Ok results)
          indexes all_results.
Proof.
  revert indexes' all_results.
  induction indexes as [| ix rest IH]; intros indexes' all_results; simpl.
  - intros [= <- <-]. constructor.
  - destruct (index_search (index_state ix) q k) as [[results|e] st] eqn:Hix;
      [| by intros [=]].
    destruct (search_all rest q k) as [[others|e] rest'] eqn:Hrest; [| by intros [=]].
    intros [= <- <-]. constructor; [by rewrite Hix |]. by eapply IH.
Qed.

Lemma scored_documents_keys (all_results : list (list (addr * R))) (k_rrf : Z) :
  (scored_documents all_results k_rrf).*1
  = (record_all (length all_results) 0 all_results []).*1.
Proof.
  unfold scored_documents. rewrite <- list_fmap_compose.
  apply list_fmap_ext. by intros i [doc ranks].
Qed.

Lemma scored_documents_spec (all_results : list (list (addr * R))) (k_rrf : Z) :
  NoDup (scored_documents all_results k_rrf).*1
  ∧ (∀ doc, doc ∈ (scored_documents all_results k_rrf).*1
            ↔ ∃ results, results ∈ all_results ∧ doc ∈ results.*1)
  ∧ (∀ doc score, (doc, score) ∈ scored_documents all_results k_rrf →
                  score = rrf_score k_rrf all_results doc).
Proof.
  destruct (doc_ranks_table all_results) as [Hnodup Hranks].
  rewrite scored_documents_keys. split; [done |]. split.
  - intros doc. split.
    + intros Hin. destruct (ranks_of doc (record_all (length all_results) 0 all_results []))
        eqn:Hr; [| by apply ranks_of_None in Hr].
      rewrite Hranks in Hr. case_decide as Hall; [done |].
      apply not_Forall_Exists in Hall; [| apply _].
      apply Exists_exists in Hall as (results & Hres & Hrank).
      exists results. split; [done |].
      destruct (decide (doc ∈ results.*1)) as [| Hnotin]; [done |].
      destruct Hrank. by apply rank_from_None.
    + intros (results & Hres & Hdoc).
      destruct (decide (doc ∈ (record_all (length all_results) 0 all_results []).*1))
        as [| Hnotin]; [done |].
      apply ranks_of_None in Hnotin. rewrite Hranks in Hnotin.
      case_decide as Hall; [| done].
      rewrite Forall_forall in Hall. specialize (Hall results Hres).
      by apply rank_from_None in Hall.
  - intros doc score Hin. unfold scored_documents in Hin.
    apply list_elem_of_fmap in Hin as ([doc' ranks] & [= -> ->] & Hin).
    apply (ranks_of_elem _ _ _ Hnodup) in Hin.
    rewrite Hranks in Hin. case_decide; [done |]. injection Hin as <-.
    rewrite Nat.sub_diag, app_nil_r. rewrite calc_rrf_score_spec.
    unfold rrf_score. by rewrite <- list_fmap_compose.
Qed.

(** C2.  A search with a string query, [k > 0] and [k_rrf >= 0] asks every
    index for [5 k] candidates.  The documents it scores are those that
    some index returned, each once, and the fusion score of a document is
    the sum over the indexes of [1 / (k_rrf + rank)] with its 1-based rank
    in the list of the index, an index that did not return it adding 0.
    Every score is positive and at most [N / (k_rrf + 1)], which is the
    score of a document that every one of the [N] indexes ranks first.
    The search keeps the scores above 0, sorts them in descending order
    and returns the first [k]. *)
Theorem reciprocal_rank_fusion (rand : nat → string) (w : world) (self : t)
    (query_text : string) (k k_rrf : Z) (all_results : list (list (addr * R)))
    (indexes' : list index) :
  (0 < k)%Z → (0 ≤ k_rrf)%Z →
  search_all (_indexes self) (QText query_text) (k * 5) = (Ok all_results, indexes') →
  let N := length (_indexes self) in
  let scored := scored_documents all_results k_rrf in
  let fused := slice_to k (sort_descending snd (filter (λ entry, 0 < snd entry) scored)) in
  Forall2 (λ ix results,
             fst (@index_search _ (index_ops ix) (index_state ix) (QText query_text) (k * 5))
             = Ok results)
          (_indexes self) all_results
  ∧ (_reranker_fn self = None →
     fst (search rand w self (QText query_text) k k_rrf) = Ok fused)
  ∧ NoDup scored.*1
  ∧ (∀ doc, doc ∈ scored.*1 ↔ ∃ results, results ∈ all_results ∧ doc ∈ results.*1)
  ∧ (∀ doc score, (doc, score) ∈ scored →
       score = rrf_score k_rrf all_results doc
       ∧ 0 < score <= INR N / (IZR k_rrf + 1))
  ∧ (∀ doc score, (doc, score) ∈ scored →
       Forall (λ results, rank_in doc results = Some 1%nat) all_results →
       score = INR N / (IZR k_rrf + 1))
  ∧ StronglySorted (descending snd) fused
  ∧ (∀ entry, entry ∈ fused → entry ∈ scored)
  ∧ (length fused <= Z.to_nat k)%nat.
Proof.
  intros Hk Hk_rrf Hall N scored fused.
  pose proof (search_all_spec _ _ _ _ _ Hall) as Hqueried.
  assert (HN : length all_results = N) by (symmetry; by eapply Forall2_length).
  destruct (scored_documents_spec all_results k_rrf) as (Hnodup & Hkeys & Hscores).
  split; [done |]. split.
  { intros Hnone. unfold search.
    rewrite decide_False by lia. rewrite decide_False by lia.
    rewrite Hall, Hnone. cbn [fst]. f_equal.
    unfold fuse. fold N. by rewrite <- HN. }
  split; [done |]. split; [done |]. split.
  { intros doc score Hin. pose proof (Hscores doc score Hin) as ->.
    split; [done |].
    destruct (rrf_score_bounds k_rrf all_results doc Hk_rrf) as [[_ Hhigh] Hpos].
    rewrite HN in Hhigh. split; [| done]. apply Hpos.
    assert (Hdoc : doc ∈ scored.*1) by (apply list_elem_of_fmap; by exists (doc, rrf_score k_rrf all_results doc)).
    apply Hkeys in Hdoc as (results & Hres & Hdoc). intros Hnone.
    rewrite Forall_forall in Hnone. specialize (Hnone results Hres).
    by apply rank_from_None in Hnone. }
  split.
  { intros doc score Hin Hfirst. rewrite (Hscores doc score Hin), <- HN.
    by apply rrf_score_all_first. }
  split; [apply StronglySorted_take, sort_descending_sorted |]. split.
  - intros entry Hin. unfold fused, slice_to in Hin.
    apply elem_of_take in Hin as (i & Hin%list_elem_of_lookup_2 & _).
    rewrite sort_descending_perm in Hin.
    by apply list_elem_of_filter in Hin as [_ Hin].
  - unfold fused, slice_to. rewrite length_take. lia.
Qed.

Lemma reciprocal_rank_fusion_witness :
  let self := mk [constant_index [(0%nat, 0.1); (1%nat, 0.2)];
                  constant_index [(1%nat, 0.3)]] None in
  ∃ fused, fst (search (λ _, "id") (∅, 0%nat) self (QText "query") 1 60) = Ok fused
           ∧ (length fused <= 1)%nat.
Proof.
  intros self.
  destruct (reciprocal_rank_fusion (λ _, "id") (∅, 0%nat) self "query" 1 60
              [[(0%nat, 0.1); (1%nat, 0.2)]; [(1%nat, 0.3)]]
              [constant_index [(0%nat, 0.1); (1%nat, 0.2)]; constant_index [(1%nat, 0.3)]]
              ltac:(lia) ltac:(lia) eq_refl)
    as (_ & Hsearch & _ & _ & _ & _ & _ & _ & Hlen).
  eexists. split; [by apply Hsearch | exact Hlen].
Defined.

End RankFusion.

(** ** The retriever: the reranking pass *)

Section Reranking.
Import Retriever.
Local Open Scope R_scope.

Lemma assign_id_has_id (rand : nat → string) (w w' : world) (doc : addr) :
  assign_id rand w doc = (Ok (), w') →
  has_id (fst w') doc ∧ ∀ other, has_id (fst w) other → has_id (fst w') other.
Proof.
  destruct w as [h drawn]. unfold assign_id, has_id, doc_id. simpl.
  destruct (h !! doc) as [[fields|]|] eqn:Hdoc; try done.
  case_decide as Hid.
  - intros [= <-]. simpl. split.
    + rewrite lookup_insert_eq, lookup_insert_eq. by eexists.
    + intros other. destruct (decide (other = doc)) as [-> | Hne].
      * rewrite lookup_insert_eq, lookup_insert_eq. by eexists.
      * by rewrite lookup_insert_ne.
  - intros [= <-]. simpl. rewrite Hdoc. split; [| done].
    destruct (fields !! "id") as [v|]; [by eexists | done].
Qed.

Lemma assign_ids_has_id (rand : nat → string) (docs : list addr) :
  ∀ w w', assign_ids rand w docs = (Ok (), w') →
          (∀ doc, doc ∈ docs → has_id (fst w') doc)
          ∧ ∀ other, has_id (fst w) other → has_id (fst w') other.
Proof.
  induction docs as [| doc rest IH]; intros w w'; simpl.
  - intros [= <-]. split; [| done]. intros doc Hin. by apply elem_of_nil in Hin.
  - destruct (assign_id rand w doc) as [[[]|e] w1] eqn:Hone; [| by intros [=]].
    intros Hrest. destruct (assign_id_has_id _ _ _ _ Hone) as [Hdoc Hkeep1].
    destruct (IH _ _ Hrest) as [Hall Hkeep]. split.
    + intros doc' [-> | Hin]%elem_of_cons; [by apply Hkeep | by apply Hall].
    + intros other Hother. by apply Hkeep, Hkeep1.
Qed.

Lemma for_each_total {A B} (f : A → result B) (l : list A) :
  (∀ x, x ∈ l → ∃ y, f x = Ok y) → ∃ ys, for_each f l = Ok ys.
Proof.
  induction l as [| x l IH]; intros Hall; simpl; [by eexists |].
  destruct (Hall x (list_elem_of_here _ _)) as [y ->].
  destruct IH as [ys ->]; [intros x' Hin; by apply Hall, list_elem_of_further |].
  by eexists.
Qed.

(** The lookup built from the candidates answers with the last candidate
    that carries the identifier. *)
Lemma make_doc_lookup_spec (h : heap) (candidates : list (addr * R)) (identifier : value) :
  ∀ ids, for_each (doc_id h) candidates.*1 = Ok ids →
         make_doc_lookup ids candidates.*1 !! identifier
         = fst <$> candidate_with_id h candidates identifier.
Proof.
  unfold make_doc_lookup, candidate_with_id.
  assert (Hgen : ∀ ids (lookup0 : gmap value addr),
             for_each (doc_id h) candidates.*1 = Ok ids →
             foldl (λ lookup '(i, doc), <[i := doc]> lookup) lookup0 (zip ids candidates.*1)
               !! identifier
             = match last (filter (λ candidate, doc_id h (fst candidate) = Ok identifier)
                                  candidates) with
               | Some candidate => Some (fst candidate)
               | None => lookup0 !! identifier
               end).
  { induction candidates as [| [doc score] rest IH]; intros ids lookup0; csimpl.
    - by intros [= <-].
    - destruct (doc_id h doc) as [i|] eqn:Hid; [| done]. cbn [mbind result_bind].
      destruct (for_each (doc_id h) rest.*1) as [others|] eqn:Hrest; [| done].
      cbn [mbind result_bind]. intros [= <-]. cbn [zip zip_with foldl].
      rewrite (IH others _ eq_refl). rewrite filter_cons. cbn [fst]. rewrite Hid.
      destruct (decide (Ok i = Ok identifier)) as [[= ->] | Hne].
      + rewrite last_cons.
        destruct (last (filter _ rest)); [done |]. by rewrite lookup_insert_eq.
      + destruct (last (filter _ rest)); [done |].
        rewrite lookup_insert_ne; [done | congruence]. }
  intros ids Hids. rewrite (Hgen ids ∅ Hids).
  destruct (last (filter _ candidates)); [done |]. by rewrite lookup_empty.
Qed.

Lemma make_original_scores_spec (candidates : list (addr * R)) (doc : addr) (score : R) :
  NoDup candidates.*1 → (doc, score) ∈ candidates →
  make_original_scores candidates !! doc = Some score.
Proof.
  unfold make_original_scores.
  induction candidates as [| [d s] rest IH] using rev_ind; intros Hnodup Hin.
  - by apply elem_of_nil in Hin.
  - rewrite foldl_app. cbn [foldl].
    rewrite fmap_app in Hnodup. apply NoDup_app in Hnodup as (Hrest & Hdisjoint & _).
    apply elem_of_app in Hin as [Hin | Hin].
    + rewrite lookup_insert_ne; [by apply IH |].
      intros ->. apply (Hdisjoint doc).
      * apply list_elem_of_fmap. by exists (doc, score).
      * apply list_elem_of_here.
    + apply list_elem_of_singleton in Hin as [= -> ->]. by rewrite lookup_insert_eq.
Qed.

Lemma candidate_with_id_elem (h : heap) (candidates : list (addr * R)) (identifier : value)
    (candidate : addr * R) :
  candidate_with_id h candidates identifier = Some candidate →
  candidate ∈ candidates ∧ doc_id h (fst candidate) = Ok identifier.
Proof.
  unfold candidate_with_id. intros Hlast.
  assert (Hin : candidate ∈ filter (λ c, doc_id h (fst c) = Ok identifier) candidates).
  { apply last_Some in Hlast as [l' ->]. apply elem_of_app. right. apply list_elem_of_here. }
  apply list_elem_of_filter in Hin. naive_solver.
Qed.

(** What the loop over the reranked identifiers collects. *)
Lemma collect_reranked_spec (h : heap) (candidates : list (addr * R)) (ids : list value)
    (reranked_ids : list value) :
  NoDup candidates.*1 →
  for_each (doc_id h) candidates.*1 = Ok ids →
  collect_reranked (make_doc_lookup ids candidates.*1) (make_original_scores candidates)
                   reranked_ids
  = omap (candidate_with_id h candidates) reranked_ids.
Proof.
  intros Hnodup Hids. unfold collect_reranked.
  induction reranked_ids as [| identifier rest IH]; [done |].
  cbn [omap list_omap]. fold (omap (candidate_with_id h candidates) rest). rewrite <- IH.
  rewrite (make_doc_lookup_spec h candidates identifier ids Hids).
  destruct (candidate_with_id h candidates identifier) as [[doc score]|] eqn:Hcand; [| done].
  simpl. apply candidate_with_id_elem in Hcand as [Hin _].
  by rewrite (make_original_scores_spec candidates doc score Hnodup Hin).
Qed.

Lemma fuse_NoDup (n : nat) (all_results : list (list (addr * R))) (k k_rrf : Z) :
  n = length all_results → NoDup (fuse n all_results k k_rrf).*1.
Proof.
  intros ->. destruct (scored_documents_spec all_results k_rrf) as (Hnodup & _).
  unfold fuse, slice_to.
  eapply sublist_NoDup; [| apply fmap_sublist, sublist_take].
  rewrite sort_descending_perm.
  eapply sublist_NoDup; [exact Hnodup |]. apply fmap_sublist, sublist_filter.
Qed.

(** The search of a retriever with a reranking function, once the
    identifiers are assigned and the reranker has answered. *)
Lemma search_with_reranker (rand : nat → string) (w w' : world) (self : t)
    (query_text : string) (k k_rrf : Z) (all_results : list (list (addr * R)))
    (indexes' : list index) (reranker_fn : reranker) (reranked_ids : list value) :
  (0 < k)%Z → (0 ≤ k_rrf)%Z →
  search_all (_indexes self) (QText query_text) (k * 5) = (Ok all_results, indexes') →
  _reranker_fn self = Some reranker_fn →
  let candidates := fuse (length (_indexes self)) all_results k k_rrf in
  assign_ids rand w candidates.*1 = (Ok (), w') →
  reranker_fn (fst w') candidates.*1 query_text k = Ok reranked_ids →
  NoDup candidates.*1
  ∧ (∀ doc, doc ∈ candidates.*1 → has_id (fst w') doc)
  ∧ fst (search rand w self (QText query_text) k k_rrf)
    = Ok (omap (candidate_with_id (fst w') candidates) reranked_ids).
Proof.
  intros Hk Hk_rrf Hall Hfn candidates Hassign Hreranked.
  assert (Hnodup : NoDup candidates.*1).
  { apply fuse_NoDup. by eapply Forall2_length, search_all_spec. }
  destruct (assign_ids_has_id _ _ _ _ Hassign) as [Hids _].
  split; [done |]. split; [done |].
  destruct (for_each_total (doc_id (fst w')) candidates.*1) as [ids Hfor]; [done |].
  unfold search. rewrite decide_False by lia. rewrite decide_False by lia.
  rewrite Hall, Hfn. fold candidates. unfold rerank.
  change (map fst candidates) with (candidates.*1).
  rewrite Hassign, Hfor, Hreranked. cbn [fst]. f_equal.
  by apply collect_reranked_spec.
Qed.

Lemma omap_length_le {A B} (f : A → option B) (l : list A) :
  (length (omap f l) <= length l)%nat.
Proof.
  induction l as [| x l IH]; csimpl; [done |]. destruct (f x); simpl; lia.
Qed.

Lemma omap_all_Some {A B} (f : A → option B) (l : list A) :
  Forall (λ x, is_Some (f x)) l →
  Forall2 (λ y x, f x = Some y) (omap f l) l.
Proof.
  induction 1 as [| x l [y Hx] _ IH]; csimpl; [constructor |].
  rewrite Hx. by constructor.
Qed.

(** The fused candidates of two documents that one index returns. *)
Lemma fuse_two_documents (first second : R) :
  fuse 1 [[(0%nat, first); (1%nat, second)]] 2 60
  = [(0%nat, 1 / (60 + 1)); (1%nat, 1 / (60 + (1 + 1)))].
Proof.
  assert (Hranks : record_all 1 0 [[(0%nat, first); (1%nat, second)]] []
                   = [(0%nat, [Some 1%nat]); (1%nat, [Some 2%nat])]) by reflexivity.
  assert (Hfirst : calc_rrf_score 60 [Some 1%nat] = 1 / (60 + 1)).
  { unfold calc_rrf_score, sum. simpl. lra. }
  assert (Hsecond : calc_rrf_score 60 [Some 2%nat] = 1 / (60 + (1 + 1))).
  { unfold calc_rrf_score, sum. simpl. lra. }
  unfold fuse. rewrite Hranks. cbn [map]. rewrite Hfirst, Hsecond.
  rewrite !filter_cons, filter_nil. cbn [snd].
  rewrite !decide_True by lra.
  unfold sort_descending, sort_with, slice_to. cbn [foldr insert_sorted snd].
  rewrite bool_decide_eq_true_2 by lra.
  reflexivity.
Qed.

(** A document that only the first index returns and one that only the
    second returns, each ranked first, both get [1 / (60 + 1)]. *)
Example fuse_disjoint_hits (first second : R) :
  fuse 2 [[(0%nat, first)]; [(1%nat, second)]] 2 60
  = [(0%nat, 1 / (60 + 1)); (1%nat, 1 / (60 + 1))].
Proof.
  assert (Hranks : record_all 2 0 [[(0%nat, first)]; [(1%nat, second)]] []
                   = [(0%nat, [Some 1%nat; None]); (1%nat, [None; Some 1%nat])])
    by reflexivity.
  assert (Hfirst : calc_rrf_score 60 [Some 1%nat; None] = 1 / (60 + 1)).
  { unfold calc_rrf_score, sum. simpl. lra. }
  assert (Hsecond : calc_rrf_score 60 [None; Some 1%nat] = 1 / (60 + 1)).
  { unfold calc_rrf_score, sum. simpl. lra. }
  unfold fuse. rewrite Hranks. cbn [map]. rewrite Hfirst, Hsecond.
  rewrite !filter_cons, filter_nil. cbn [snd].
  rewrite !decide_True by lra.
  unfold sort_descending, sort_with, slice_to. cbn [foldr insert_sorted snd].
  rewrite bool_decide_eq_true_2 by lra.
  reflexivity.
Qed.

(** C5.  With a reranking function, the result of a search is the
    sequence of identifiers the reranker returned, each replaced by the
    candidate that carries it together with its fusion score: the entries
    come in the order of the reranker, an identifier that no candidate
    carries leaves no entry, a candidate whose identifier the reranker did
    not return is absent, and when every identifier is carried by a
    candidate the result has exactly the length of the reranker's
    answer. *)
Theorem reranker_is_authoritative (rand : nat → string) (w w' : world) (self : t)
    (query_text : string) (k k_rrf : Z) (all_results : list (list (addr * R)))
    (indexes' : list index) (reranker_fn : reranker) (reranked_ids : list value) :
  (0 < k)%Z → (0 ≤ k_rrf)%Z →
  search_all (_indexes self) (QText query_text) (k * 5) = (Ok all_results, indexes') →
  _reranker_fn self = Some reranker_fn →
  let candidates := fuse (length (_indexes self)) all_results k k_rrf in
  assign_ids rand w candidates.*1 = (Ok (), w') →
  reranker_fn (fst w') candidates.*1 query_text k = Ok reranked_ids →
  let final := omap (candidate_with_id (fst w') candidates) reranked_ids in
  fst (search rand w self (QText query_text) k k_rrf) = Ok final
  ∧ (∀ entry, entry ∈ final → entry ∈ candidates)
  ∧ (∀ identifier,
       (∀ doc, doc ∈ candidates.*1 → doc_id (fst w') doc ≠ Ok identifier) →
       candidate_with_id (fst w') candidates identifier = None)
  ∧ (∀ doc, doc ∈ final.*1 →
       ∃ identifier, identifier ∈ reranked_ids ∧ doc_id (fst w') doc = Ok identifier)
  ∧ (length final <= length reranked_ids)%nat
  ∧ (Forall (λ identifier, is_Some (candidate_with_id (fst w') candidates identifier))
            reranked_ids →
     Forall2 (λ entry identifier, doc_id (fst w') (fst entry) = Ok identifier)
             final reranked_ids).
Proof.
  intros Hk Hk_rrf Hall Hfn candidates Hassign Hreranked final.
  destruct (search_with_reranker rand w w' self query_text k k_rrf all_results indexes'
              reranker_fn reranked_ids Hk Hk_rrf Hall Hfn Hassign Hreranked)
    as (Hnodup & Hids & Hsearch).
  split; [done |]. split.
  { intros entry (identifier & _ & Hcand)%list_elem_of_omap.
    by apply candidate_with_id_elem in Hcand as [Hin _]. }
  split.
  { intros identifier Hnone.
    destruct (candidate_with_id (fst w') candidates identifier) as [[doc score]|] eqn:Hcand;
      [| done].
    apply candidate_with_id_elem in Hcand as [Hin Hdoc]. destruct (Hnone doc); [| done].
    apply list_elem_of_fmap. by exists (doc, score). }
  split.
  { intros doc ([doc' score] & -> & Hin)%list_elem_of_fmap.
    apply list_elem_of_omap in Hin as (identifier & Hid & Hcand).
    apply candidate_with_id_elem in Hcand as [_ Hdoc]. by exists identifier. }
  split; [apply omap_length_le |].
  intros Hsome. apply omap_all_Some in Hsome.
  eapply Forall2_impl; [exact Hsome |]. intros entry identifier Hcand.
  by apply candidate_with_id_elem in Hcand as [_ Hdoc].
Qed.

Lemma reranker_is_authoritative_witness :
  let h : heap := {[ 0%nat := ODict {[ "content" := VStr "x"; "id" := VStr "a" ]};
                     1%nat := ODict {[ "content" := VStr "y"; "id" := VStr "b" ]} ]} in
  let reranker_fn : reranker := λ _ _ _ _, Ok [VStr "b"; VStr "zz"; VStr "a"] in
  let self := mk [constant_index [(0%nat, 0.1); (1%nat, 0.2)]] (Some reranker_fn) in
  fst (search (λ _, "id") (h, 0%nat) self (QText "query") 2 60)
  = Ok [(1%nat, 1 / (60 + (1 + 1))); (0%nat, 1 / (60 + 1))].
Proof.
  intros h reranker_fn self.
  assert (Hassign : assign_ids (λ _, "id") (h, 0%nat)
                      (fuse (length (_indexes self)) [[(0%nat, 0.1); (1%nat, 0.2)]] 2 60).*1
                    = (Ok (), (h, 0%nat))).
  { change (length (_indexes self)) with 1%nat. by rewrite fuse_two_documents. }
  destruct (reranker_is_authoritative (λ _, "id") (h, 0%nat) (h, 0%nat) self "query" 2 60
              [[(0%nat, 0.1); (1%nat, 0.2)]]
              [constant_index [(0%nat, 0.1); (1%nat, 0.2)]]
              reranker_fn [VStr "b"; VStr "zz"; VStr "a"]
              ltac:(lia) ltac:(lia) eq_refl eq_refl Hassign eq_refl)
    as (Hsearch & _).
  rewrite Hsearch. change (length (_indexes self)) with 1%nat.
  rewrite fuse_two_documents. reflexivity.
Defined.

(** C10.  When two candidates carry the same identifier, the lookup
    answers with a later one: the earlier candidate is a different
    document, it is not what the identifier stands for, and it is in no
    result of the search, whatever the reranker returns; if no candidate
    after the later one carries the identifier, the later one is what the
    identifier stands for, and it is returned whenever the reranker names
    the identifier. *)
Theorem duplicate_id_hides_earlier_candidate (rand : nat → string) (w w' : world) (self : t)
    (query_text : string) (k k_rrf : Z) (all_results : list (list (addr * R)))
    (indexes' : list index) (reranker_fn : reranker) (reranked_ids : list value)
    (i j : nat) (A B : addr) (scoreA scoreB : R) (identifier : value) :
  (0 < k)%Z → (0 ≤ k_rrf)%Z →
  search_all (_indexes self) (QText query_text) (k * 5) = (Ok all_results, indexes') →
  _reranker_fn self = Some reranker_fn →
  let candidates := fuse (length (_indexes self)) all_results k k_rrf in
  assign_ids rand w candidates.*1 = (Ok (), w') →
  reranker_fn (fst w') candidates.*1 query_text k = Ok reranked_ids →
  candidates !! i = Some (A, scoreA) →
  candidates !! j = Some (B, scoreB) →
  (i < j)%nat →
  doc_id (fst w') A = Ok identifier →
  doc_id (fst w') B = Ok identifier →
  ∃ final,
    fst (search rand w self (QText query_text) k k_rrf) = Ok final
    ∧ A ≠ B
    ∧ (∀ score, candidate_with_id (fst w') candidates identifier ≠ Some (A, score))
    ∧ (A ∉ final.*1)
    ∧ ((∀ later doc score, (j < later)%nat → candidates !! later = Some (doc, score) →
                           doc_id (fst w') doc ≠ Ok identifier) →
       candidate_with_id (fst w') candidates identifier = Some (B, scoreB)
       ∧ (identifier ∈ reranked_ids → (B, scoreB) ∈ final)).
Proof.
  intros Hk Hk_rrf Hall Hfn candidates Hassign Hreranked Hi Hj Hij HidA HidB.
  destruct (search_with_reranker rand w w' self query_text k k_rrf all_results indexes'
              reranker_fn reranked_ids Hk Hk_rrf Hall Hfn Hassign Hreranked)
    as (Hnodup & Hids & Hsearch).
  fold candidates in Hnodup, Hids, Hsearch.
  assert (HAB : A ≠ B).
  { intros ->. assert (i = j); [| lia].
    apply (NoDup_lookup candidates.*1 i j B Hnodup); rewrite list_lookup_fmap.
    - by rewrite Hi.
    - by rewrite Hj. }
  assert (Hhidden : ∀ score, candidate_with_id (fst w') candidates identifier
                             ≠ Some (A, score)).
  { intros score Hlast. unfold candidate_with_id in Hlast.
    apply last_filter_Some in Hlast as (l1 & l2 & Hsplit & Hafter).
    assert (Hpos : i = length l1).
    { apply (NoDup_lookup candidates.*1 i (length l1) A Hnodup); rewrite list_lookup_fmap.
      - by rewrite Hi.
      - rewrite Hsplit. by rewrite list_lookup_middle. }
    rewrite Hsplit in Hj. rewrite lookup_app_r in Hj by lia.
    destruct (j - length l1)%nat as [| later] eqn:Hdiff; [lia |].
    simpl in Hj. apply list_elem_of_lookup_2 in Hj.
    rewrite Forall_forall in Hafter. by apply (Hafter _ Hj). }
  exists (omap (candidate_with_id (fst w') candidates) reranked_ids).
  split; [done |]. split; [done |]. split; [done |]. split.
  { intros ([doc score] & Hdoc & Hin)%list_elem_of_fmap. simpl in Hdoc. subst doc.
    apply list_elem_of_omap in Hin as (identifier' & _ & Hcand).
    pose proof (candidate_with_id_elem _ _ _ _ Hcand) as [_ HidA'].
    simpl in HidA'. rewrite HidA in HidA'. injection HidA' as <-.
    by apply (Hhidden score). }
  intros Hlast.
  assert (Hcand : candidate_with_id (fst w') candidates identifier = Some (B, scoreB)).
  { unfold candidate_with_id.
    rewrite <- (take_drop_middle candidates j (B, scoreB) Hj).
    rewrite filter_app, filter_cons. cbn [fst]. rewrite decide_True by done.
    assert (Hnone : filter (λ c, doc_id (fst w') (fst c) = Ok identifier)
                           (drop (S j) candidates) = []).
    { apply elem_of_nil_inv. intros [doc score] [Hdoc Hin]%list_elem_of_filter.
      apply list_elem_of_lookup in Hin as [later Hlater]. rewrite lookup_drop in Hlater.
      apply (Hlast (S j + later)%nat doc score); [lia | done | done]. }
    rewrite Hnone. apply last_snoc. }
  split; [done |]. intros Hin. apply list_elem_of_omap. by exists identifier.
Qed.

Lemma duplicate_id_witness :
  let h : heap := {[ 0%nat := ODict {[ "content" := VStr "x"; "id" := VStr "a" ]};
                     1%nat := ODict {[ "content" := VStr "y"; "id" := VStr "a" ]} ]} in
  let reranker_fn : reranker := λ _ _ _ _, Ok [VStr "a"] in
  let self := mk [constant_index [(0%nat, 0.1); (1%nat, 0.2)]] (Some reranker_fn) in
  ∃ final, fst (search (λ _, "id") (h, 0%nat) self (QText "query") 2 60) = Ok final
           ∧ (0%nat ∉ final.*1)
           ∧ (1%nat, 1 / (60 + (1 + 1))) ∈ final.
Proof.
  intros h reranker_fn self.
  assert (Hfuse : fuse (length (_indexes self)) [[(0%nat, 0.1); (1%nat, 0.2)]] 2 60
                  = [(0%nat, 1 / (60 + 1)); (1%nat, 1 / (60 + (1 + 1)))]).
  { change (length (_indexes self)) with 1%nat. apply fuse_two_documents. }
  destruct (duplicate_id_hides_earlier_candidate (λ _, "id") (h, 0%nat) (h, 0%nat) self
              "query" 2 60 [[(0%nat, 0.1); (1%nat, 0.2)]]
              [constant_index [(0%nat, 0.1); (1%nat, 0.2)]]
              reranker_fn [VStr "a"] 0 1 0%nat 1%nat (1 / (60 + 1)) (1 / (60 + (1 + 1)))
              (VStr "a") ltac:(lia) ltac:(lia) eq_refl eq_refl)
    as (final & Hsearch & _ & _ & Hhidden & Hlater).
  - by rewrite Hfuse.
  - reflexivity.
  - by rewrite Hfuse.
  - by rewrite Hfuse.
  - lia.
  - reflexivity.
  - reflexivity.
  - exists final. split; [done |]. split; [done |].
    apply Hlater; [| apply list_elem_of_here].
    intros later doc score Hgt. rewrite Hfuse.
    destruct later as [| [| later]]; [lia | lia | done].
Defined.

End Reranking.

(** * Further properties of the code *)

(** ** The default tokenizer *)

Section Tokenizer.
Import BM25Index.







End Tokenizer.

(** ** More on the lexical index *)

Section LexicalIndexMore.
Import BM25Index.
Local Open Scope R_scope.

Lemma document_frequency_le (corpus : list (list string)) (term : string) :
  (document_frequency corpus term <= length corpus)%nat.
Proof. unfold document_frequency. apply length_filter. Qed.

Lemma document_frequency_zero (corpus : list (list string)) (term : string) :
  document_frequency corpus term = 0%nat ↔ ∀ tokens, tokens ∈ corpus → term ∉ tokens.
Proof.
  split; [| apply document_frequency_absent].
  unfold document_frequency. intros Hzero tokens Hin Hterm.
  apply length_zero_iff_nil in Hzero.
  assert (Hfiltered : tokens ∈ filter (λ doc_tokens, term ∈ doc_tokens) corpus)
    by by apply list_elem_of_filter.
  rewrite Hzero in Hfiltered. by apply elem_of_nil in Hfiltered.
Qed.

(** X2.  The statistics of a lexical index track its corpus: one token list
    and one length per document, and for every term the number of documents
    that hold it, each document counted once however often it repeats the
    term; a term is missing from the table exactly when no document holds
    it.  When the index is marked as built, the average length and the IDF
    table are those of the present corpus. *)
Theorem lexical_statistics_track_corpus (self : t) :
  bm25_reachable self →
  length (documents self) = length (_corpus_tokens self)
  ∧ _doc_len self = length <$> _corpus_tokens self
  ∧ (∀ term,
       default 0%nat (_doc_freqs self !! term) = document_frequency (_corpus_tokens self) term
       ∧ (document_frequency (_corpus_tokens self) term <= length (documents self))%nat
       ∧ (_doc_freqs self !! term = None
          ↔ ∀ tokens, tokens ∈ _corpus_tokens self → term ∉ tokens))
  ∧ (_index_built self = true →
     (documents self = [] → _avg_doc_len self = 0 ∧ _idf self = ∅)
     ∧ (documents self ≠ [] →
        _avg_doc_len self = average_length (_corpus_tokens self)
        ∧ ∀ term, _idf self !! term
                  = idf_score (length (documents self)) <$> _doc_freqs self !! term)).
Proof.
  intros [Hdocs Hlen Hfreqs Hbuilt]%reachable_consistent.
  split; [done |]. split; [done |]. split.
  - intros term. rewrite Hfreqs, <- document_frequency_zero, Hdocs.
    split; [by case_decide |]. split; [apply document_frequency_le |].
    by case_decide.
  - intros Hb. specialize (Hbuilt Hb).
    assert (Havg : _avg_doc_len (_build_index self) = _avg_doc_len self) by by rewrite Hbuilt.
    assert (Hidf : _idf (_build_index self) = _idf self) by by rewrite Hbuilt.
    rewrite <- Havg, <- Hidf. clear Havg Hidf Hbuilt.
    unfold _build_index, _calculate_idf.
    destruct (decide (documents self = [])) as [Hnil | Hne]; simpl.
    + split; [done | by intros []].
    + split; [done |]. intros _.
      split; [unfold average_length; by rewrite Hlen, Hdocs |].
      intros term. by rewrite lookup_fmap.
Qed.

Lemma lexical_statistics_witness :
  let h : heap := {[ 0%nat := ODict {[ "content" := VStr "a b a" ]} ]} in
  let self := snd (add_document h (__init__ 1.5 0.75 None) 0%nat) in
  default 0%nat (_doc_freqs self !! "a") = document_frequency (_corpus_tokens self) "a".
Proof.
  intros h self.
  destruct (lexical_statistics_track_corpus self) as (_ & _ & Hfreqs & _);
    [apply reach_add_document, reach_init |].
  apply Hfreqs.
Defined.

(** Every IDF value of a built index is strictly positive. *)
Lemma idf_score_positive (N freq : nat) : (freq <= N)%nat → 0 < idf_score N freq.
Proof.
  intros Hle%le_INR. unfold idf_score. rewrite <- ln_1.
  pose proof (pos_INR freq) as Hf.
  apply ln_increasing; [lra |].
  assert (0 < (INR N - INR freq + 0.5) / (INR freq + 0.5)); [| lra].
  apply Rdiv_lt_0_compat; lra.
Qed.

(** After a search with a text query and a positive [k] on a non-empty
    index the index is the rebuilt one. *)
Lemma search_leaves_built_index (self : t) (text : string) (k : Z) (factor : R) :
  bm25_reachable self → (0 < k)%Z → documents self ≠ [] →
  snd (search self (QText text) k factor) = _build_index self.
Proof.
  intros Hreach Hk Hne. pose proof (index_used_by_search self Hreach) as Hused.
  unfold search. rewrite Hused.
  rewrite decide_False by done. rewrite decide_False by lia.
  case_decide; [done |]. case_decide; [done |].
  by destruct (score_all _ _).
Qed.

(** X3.  A search finds the same results whether the statistics were stale
    or fresh: it behaves as on the rebuilt index, and after a search with a
    text query and a positive [k] on a non-empty index the index is the
    rebuilt one. *)
Theorem search_ignores_staleness (self : t) (q : query) (k : Z) (factor : R) :
  bm25_reachable self →
  fst (search self q k factor) = fst (search (_build_index self) q k factor)
  ∧ (∀ text, q = QText text → (0 < k)%Z → documents self ≠ [] →
       snd (search self q k factor) = _build_index self
       ∧ _index_built (snd (search self q k factor)) = true).
Proof.
  intros Hreach. pose proof (index_used_by_search self Hreach) as Hused.
  assert (Hdocs : documents (_build_index self) = documents self).
  { unfold _build_index. by case_decide. }
  assert (Htrue : _index_built (_build_index self) = true).
  { unfold _build_index. by case_decide. }
  split.
  - unfold search. rewrite Hdocs, Htrue, Hused.
    case_decide; [done |]. destruct q as [text | |]; [| done | done].
    case_decide; [done |]. case_decide; [done |]. case_decide; [done |].
    by destruct (score_all _ _).
  - intros text -> Hk Hne.
    rewrite (search_leaves_built_index self text k factor Hreach Hk Hne). by split.
Qed.

Lemma search_ignores_staleness_witness :
  let h : heap := {[ 0%nat := ODict {[ "content" := VStr "a b a" ]} ]} in
  let self := snd (add_document h (__init__ 1.5 0.75 None) 0%nat) in
  fst (search self (QText "a") 1 0.1) = fst (search (_build_index self) (QText "a") 1 0.1).
Proof.
  intros h self.
  apply (search_ignores_staleness self (QText "a") 1 0.1).
  apply reach_add_document, reach_init.
Defined.










Lemma add_each_keeps_idf (h : heap) (docs : list addr) :
  ∀ self, _idf (snd (add_each h self docs)) = _idf self.
Proof.
  induction docs as [| doc rest IH]; intros self; simpl; [done |].
  destruct (checked_content h doc) as [content|]; [| done].
  by rewrite IH.
Qed.

(** X5.  Every value in the IDF table of a lexical index is strictly
    positive, however many documents hold the term: a query term never
    lowers a score. *)
Theorem idf_values_are_positive (self : t) (term : string) (idf : R) :
  bm25_reachable self → _idf self !! term = Some idf → 0 < idf.
Proof.
  intros Hreach. revert term idf.
  induction Hreach as [k1 b tokenizer | h self document Hreach IH
                       | h self docs Hreach IH | self q k factor Hreach IH];
    intros term idf.
  - unfold __init__. simpl. by rewrite lookup_empty.
  - unfold add_document. destruct (checked_content h document); [| apply IH].
    simpl. apply IH.
  - unfold add_documents. case_decide; [apply IH |].
    pose proof (add_each_keeps_idf h docs self) as Hkeep.
    destruct (add_each h self docs) as [[[]|e] self']; simpl in *; rewrite Hkeep; apply IH.
  - assert (Hbuilt : ∀ term idf, _idf (_build_index self) !! term = Some idf → 0 < idf).
    { clear term idf. intros term idf. unfold _build_index, _calculate_idf.
      case_decide; simpl; [by rewrite lookup_empty |].
      rewrite lookup_fmap.
      destruct (reachable_consistent self Hreach) as [Hdocs _ Hfreqs _].
      rewrite Hfreqs. case_decide; [done |]. simpl. intros [= <-].
      apply idf_score_positive. rewrite Hdocs. apply document_frequency_le. }
    unfold search. case_decide; [apply IH |].
    destruct q as [text | |]; [| apply IH ..].
    case_decide; [apply IH |].
    assert (Hstate : ∀ term idf,
              _idf (if _index_built self then self else _build_index self) !! term = Some idf →
              0 < idf).
    { destruct (_index_built self); [apply IH | apply Hbuilt]. }
    case_decide; [apply Hstate |]. case_decide; [apply Hstate |].
    destruct (score_all _ _); apply Hstate.
Qed.

Lemma idf_values_are_positive_witness :
  let h : heap := {[ 0%nat := ODict {[ "content" := VStr "a b a" ]} ]} in
  let self := snd (add_document h (__init__ 1.5 0.75 None) 0%nat) in
  0 < idf_score 1 1.
Proof.
  intros h self.
  assert (Hreach : bm25_reachable self) by apply reach_add_document, reach_init.
  apply (idf_values_are_positive (snd (search self (QText "a") 1 0.1)) "a" (idf_score 1 1)).
  - by apply reach_search.
  - rewrite (search_leaves_built_index self "a" 1 0.1 Hreach ltac:(lia) ltac:(done)).
    reflexivity.
Defined.

End LexicalIndexMore.

(** ** The lexical index: what a search returns *)

Section LexicalOverlap.
Import BM25Index.
Local Open Scope R_scope.

Lemma term_frequency_absent (t : string) (doc_tokens : list string) :
  t ∉ doc_tokens → term_frequency t doc_tokens = 0%nat.
Proof.
  intros Hnot. unfold term_frequency.
  induction doc_tokens as [| token rest IH]; [done |].
  rewrite filter_cons. case_decide as Heq.
  - subst. exfalso. apply Hnot. left.
  - apply IH. intros Hin. apply Hnot. by right.
Qed.

(** A query without a token of the document leaves the running score as
    it is. *)
Lemma accumulate_score_no_overlap (self : t) (doc_tokens : list string) (doc_length : nat)
    (query_tokens : list string) :
  (∀ token, token ∈ query_tokens → token ∉ doc_tokens) →
  ∀ score raw,
    accumulate_score self (Counter doc_tokens) doc_length query_tokens score = Ok raw →
    raw = score.
Proof.
  induction query_tokens as [| token rest IH]; intros Hnone score raw;
    cbn [accumulate_score].
  - by intros [= <-].
  - assert (Hrest : ∀ token', token' ∈ rest → token' ∉ doc_tokens).
    { intros token' Hin. apply Hnone. by right. }
    destruct (_idf self !! token) as [idf|]; [| by apply IH].
    destruct (truediv (INR doc_length) (_avg_doc_len self)) as [ratio|]; [| done].
    cbn [mbind result_bind]. unfold truediv. case_decide; [done |].
    cbn [mbind result_bind]. intros Hraw. apply IH in Hraw; [| done]. rewrite Hraw.
    rewrite Counter_lookup, term_frequency_absent by (apply Hnone; left).
    simpl. lra.
Qed.

(** X6.  Every document that a lexical search returns holds at least one
    token of the query. *)
Theorem returned_document_shares_a_token (self self' : t) (q : query) (k : Z) (factor : R)
    (results : list (addr * R)) (document : addr) :
  search self q k factor = (Ok results, self') →
  document ∈ results.*1 →
  ∃ query_text doc_index doc_tokens token,
    q = QText query_text
    ∧ documents self !! doc_index = Some document
    ∧ _corpus_tokens self !! doc_index = Some doc_tokens
    ∧ token ∈ _tokenizer self query_text
    ∧ token ∈ doc_tokens.
Proof.
  intros Hsearch Hin.
  destruct (search_returns self self' q k factor results Hsearch)
    as (scores & -> & Hscores).
  apply list_elem_of_fmap in Hin as ([document' normalized] & -> & Hin). simpl.
  rewrite sort_ascending_perm in Hin.
  apply list_elem_of_fmap in Hin as ([raw document''] & Heq & Hin).
  injection Heq as -> _.
  unfold kept_candidates, slice_to in Hin.
  apply elem_of_take in Hin as (i & Hin%list_elem_of_lookup_2 & _).
  rewrite sort_descending_perm in Hin.
  apply list_elem_of_filter in Hin as [Hraw Hin]. simpl in Hraw.
  destruct Hscores as [-> | (query_text & -> & Hself' & Hscores)];
    [by apply elem_of_nil in Hin |].
  assert (Hfields : documents self' = documents self
                    ∧ _corpus_tokens self' = _corpus_tokens self
                    ∧ _tokenizer self' = _tokenizer self).
  { rewrite Hself'. destruct (_index_built self); [done |].
    unfold _build_index. by case_decide. }
  destruct Hfields as (Hdocs & Hcorpus & Htok).
  unfold score_all in Hscores.
  destruct (for_each_elem _ _ _ _ Hscores Hin) as ([doc_index doc] & Hdoc & Hscore).
  apply enumerate_elem in Hdoc.
  destruct (_compute_bm25_score self' (_tokenizer self' query_text) doc_index)
    as [raw'|] eqn:Hraw'; [| done].
  cbn [mbind result_bind] in Hscore. injection Hscore as -> ->.
  unfold _compute_bm25_score, getitem in Hraw'.
  destruct (_corpus_tokens self' !! doc_index) as [doc_tokens|] eqn:Htokens; [| done].
  cbn [mbind result_bind] in Hraw'.
  destruct (_doc_len self' !! doc_index) as [doc_length|]; [| done].
  cbn [mbind result_bind] in Hraw'.
  destruct (decide (Exists (λ token, token ∈ doc_tokens) (_tokenizer self' query_text)))
    as [Hex | Hnone].
  - apply Exists_exists in Hex as (token & Hq & Hd).
    exists query_text, doc_index, doc_tokens, token.
    rewrite <- Hdocs, <- Hcorpus, <- Htok. done.
  - exfalso. apply accumulate_score_no_overlap in Hraw'; [lra |].
    intros token Hq Hd. apply Hnone, Exists_exists. by exists token.
Qed.

Lemma returned_document_shares_a_token_witness :
  let h : heap := {[ 0%nat := ODict {[ "content" := VStr "a a" ]};
                     1%nat := ODict {[ "content" := VStr "a" ]} ]} in
  let self := snd (add_documents h (__init__ 1.5 0.75 None) [0%nat; 1%nat]) in
  ∃ results self' token,
    search self (QText "a") 2 0.1 = (Ok results, self')
    ∧ (0%nat : addr) ∈ results.*1
    ∧ token ∈ _default_tokenizer "a" ∧ token ∈ _default_tokenizer "a a".
Proof.
  intros h self.
  destruct (two_documents_search 0.1) as (raw0 & raw1 & _ & _ & Hsearch).
  fold h self in Hsearch.
  match type of Hsearch with
  | _ = (Ok ?results, _) => assert (Hin : (0%nat : addr) ∈ results.*1)
  end.
  { rewrite sort_ascending_perm. simpl. left. }
  destruct (returned_document_shares_a_token self _ (QText "a") 2 0.1 _ 0%nat Hsearch Hin)
    as (query_text & doc_index & doc_tokens & token & [= <-] & Hdoc & Htokens & Hq & Hd).
  destruct doc_index as [| [| doc_index]]; [| done | done].
  injection Htokens as <-.
  eexists _, _, token. split; [exact Hsearch |]. split; [exact Hin | by split].
Defined.

End LexicalOverlap.

(** ** The lexical index: batches *)

Section LexicalBatch.
Import BM25Index.

Lemma add_each_one_by_one (h : heap) (docs : list addr) :
  ∀ self, add_each h self docs = lexical_add_in_turn h self docs.
Proof.
  induction docs as [| doc rest IH]; intros self; [done |].
  cbn [add_each lexical_add_in_turn]. unfold add_document.
  destruct (checked_content h doc) as [content|e]; [apply IH | done].
Qed.

Lemma add_each_not_built (h : heap) (docs : list addr) :
  ∀ self self', docs ≠ [] → add_each h self docs = (Ok (), self') →
    _index_built self' = false.
Proof.
  induction docs as [| doc rest IH]; intros self self' Hne; [done |].
  cbn [add_each]. destruct (checked_content h doc) as [content|e]; [| done].
  destruct rest as [| doc' rest'].
  - cbn [add_each]. by intros [= <-].
  - by apply IH.
Qed.

(** X7.  [add_documents] is [add_document] applied to the documents in turn:
    the same result and the same index, also when a document is refused (the
    documents before it stay stored). *)
Theorem add_documents_is_add_document_in_turn (h : heap) (self : t) (docs : list addr) :
  add_documents h self docs = lexical_add_in_turn h self docs.
Proof.
  unfold add_documents. case_decide as Hnil; [by subst |].
  rewrite <- add_each_one_by_one.
  destruct (add_each h self docs) as [[[]|e] self'] eqn:Heach; [| done].
  apply add_each_not_built in Heach; [| done].
  destruct self'. simpl in Heach. by subst.
Qed.

End LexicalBatch.

(** ** The dense index: its distances *)

Section Distances.
Import VectorIndex.
Local Open Scope R_scope.



Lemma products_sym (vec1 vec2 : list R) :
  zip_with Rmult vec1 vec2 = zip_with Rmult vec2 vec1.
Proof.
  revert vec2. induction vec1 as [| p vec1 IH]; intros [| q vec2]; simpl; try done.
  f_equal; [lra | apply IH].
Qed.



(** X9.  The cosine distance of two vectors of one length is defined, lies
    in [[0, 2]] and is the same in both directions; on vectors of different
    lengths it raises [ValueError]. *)
Theorem cosine_distance_properties (vec1 vec2 : list R) :
  (length vec1 ≠ length vec2 → _cosine_distance vec1 vec2 = Raise ValueError)
  ∧ (length vec1 = length vec2 →
     ∃ d, _cosine_distance vec1 vec2 = Ok d
          ∧ _cosine_distance vec2 vec1 = Ok d
          ∧ 0 <= d <= 2).
Proof.
  split.
  - intros Hne. unfold _cosine_distance. by rewrite decide_True.
  - intros Hlen. unfold _cosine_distance, _dot_product, truediv.
    rewrite !(decide_False (P := length vec1 ≠ length vec2)) by (by intros []).
    rewrite !(decide_False (P := length vec2 ≠ length vec1)) by (by intros []).
    rewrite (products_sym vec2 vec1), (Rmult_comm (_magnitude vec2) (_magnitude vec1)).
    destruct (decide (_magnitude vec1 = 0 ∧ _magnitude vec2 = 0)) as [Hboth | Hnot].
    { rewrite decide_True by tauto. exists 0. repeat split; try done; lra. }
    rewrite (decide_False (P := _magnitude vec2 = 0 ∧ _magnitude vec1 = 0)) by tauto.
    destruct (decide (_magnitude vec1 = 0 ∨ _magnitude vec2 = 0)) as [Hone | Hnone].
    { rewrite decide_True by tauto. exists 1. repeat split; try done; lra. }
    rewrite (decide_False (P := _magnitude vec2 = 0 ∨ _magnitude vec1 = 0)) by tauto.
    cbn [mbind result_bind].
    rewrite !decide_False by (intros Hzero; apply Rmult_integral in Hzero; tauto).
    cbn [mbind result_bind]. eexists. split; [done |]. split; [done |].
    match goal with |- context [Rmax (-1) (Rmin 1 ?x)] =>
      pose proof (clamped_in_range x) end.
    lra.
Qed.

Lemma cosine_distance_properties_witness :
  ∃ d, _cosine_distance [3; 4] [4; 3] = Ok d ∧ _cosine_distance [4; 3] [3; 4] = Ok d
       ∧ 0 <= d <= 2.
Proof.
  destruct (cosine_distance_properties [3; 4] [4; 3]) as [_ Heq].
  destruct (Heq eq_refl) as (d & H1 & H2 & Hrange).
  by exists d.
Defined.

End Distances.

(** ** The dense index: search *)

Section DenseSearch.
Import VectorIndex.
Local Open Scope R_scope.

















End DenseSearch.

(** ** The dense index: batches *)

Section DenseBatch.
Import VectorIndex.

Lemma add_vector_keeps_embedding (h : heap) (self : t) (vector : vector_arg)
    (document : addr) :
  _embedding_fn (snd (add_vector h self vector document)) = _embedding_fn self.
Proof.
  unfold add_vector. destruct vector as [v|]; [| done].
  destruct (h !! document) as [[fields|]|]; try done.
  by repeat case_decide.
Qed.

(** X12.  [add_documents] of a dense index checks every document before it
    embeds or stores anything: one document without a string [content] makes
    the call raise and leaves the index as it was. *)
Theorem dense_add_documents_checks_first (h : heap) (self : t) (docs : list addr)
    (document : addr) :
  document ∈ docs → raises (checked_content h document) →
  raises (fst (add_documents h self docs)) ∧ snd (add_documents h self docs) = self.
Proof.
  intros Hin Hbad. unfold add_documents.
  destruct (_embedding_fn self) as [fn|]; [| done].
  case_decide as Hnil; [subst; by apply elem_of_nil in Hin |].
  pose proof (for_each_raises (checked_content h) docs document Hin Hbad) as Hall.
  by destruct (for_each (checked_content h) docs).
Qed.

Lemma dense_add_documents_checks_first_witness :
  let h : heap := {[ 0%nat := ODict {[ "content" := VStr "text" ]};
                     1%nat := ODict {[ "title" := VStr "no content" ]} ]} in
  let fn := {| embed_text := λ _, Numbers [1%R]; embed_batch := map (λ _, Numbers [1%R]) |} in
  let self := mk [] [] None "cosine" (Some fn) in
  raises (fst (add_documents h self [0%nat; 1%nat]))
  ∧ snd (add_documents h self [0%nat; 1%nat]) = self.
Proof.
  intros h fn self.
  apply (dense_add_documents_checks_first h self [0%nat; 1%nat] 1%nat).
  - right. left.
  - reflexivity.
Defined.

Lemma add_vectors_in_turn (h : heap) (fn : embedder) (docs : list addr) :
  ∀ self contents,
    _embedding_fn self = Some fn →
    for_each (checked_content h) docs = Ok contents →
    add_vectors h self (zip (embed_text fn <$> contents) docs) = dense_add_in_turn h self docs.
Proof.
  induction docs as [| doc rest IH]; intros self contents Hfn; simpl.
  - intros [= <-]. done.
  - destruct (checked_content h doc) as [content|] eqn:Hdoc; [| done]. simpl.
    destruct (for_each (checked_content h) rest) as [others|] eqn:Hrest; [| done]. simpl.
    intros [= <-]. simpl. unfold add_document. rewrite Hfn, Hdoc.
    pose proof (add_vector_keeps_embedding h self (embed_text fn content) doc) as Hkeep.
    destruct (add_vector h self (embed_text fn content) doc) as [[[]|e] self']; [| done].
    simpl in Hkeep. apply IH; [congruence | done].
Qed.

(** X13.  When every document has a string [content] and the embedding
    function answers a batch with the vectors it gives the texts one by one,
    [add_documents] of a dense index is [add_document] applied to the
    documents in turn: the same result and the same index, also when a
    vector is refused. *)
Theorem dense_add_documents_in_turn (h : heap) (self : t) (fn : embedder)
    (docs : list addr) (contents : list string) :
  _embedding_fn self = Some fn →
  for_each (checked_content h) docs = Ok contents →
  embed_batch fn contents = embed_text fn <$> contents →
  add_documents h self docs = dense_add_in_turn h self docs.
Proof.
  intros Hfn Hcontents Hbatch. unfold add_documents. rewrite Hfn.
  case_decide as Hnil; [by subst |].
  rewrite Hcontents, Hbatch. by apply add_vectors_in_turn.
Qed.

Lemma dense_add_documents_in_turn_witness :
  let h : heap := {[ 0%nat := ODict {[ "content" := VStr "a" ]};
                     1%nat := ODict {[ "content" := VStr "b" ]} ]} in
  let fn := {| embed_text := λ _, Numbers [1%R]; embed_batch := map (λ _, Numbers [1%R]) |} in
  let self := mk [] [] None "cosine" (Some fn) in
  add_documents h self [0%nat; 1%nat] = dense_add_in_turn h self [0%nat; 1%nat].
Proof.
  intros h fn self.
  apply (dense_add_documents_in_turn h self fn [0%nat; 1%nat] ["a"; "b"]); reflexivity.
Defined.

End DenseBatch.

(** ** The retriever: its effects *)

Section RetrieverEffects.
Import Retriever.

Lemma only_ids_added_refl (h : heap) : only_ids_added h h.
Proof.
  intros a. destruct (h !! a) as [[fields|]|]; try done. by exists fields.
Qed.

Lemma only_ids_added_trans (h1 h2 h3 : heap) :
  only_ids_added h1 h2 → only_ids_added h2 h3 → only_ids_added h1 h3.
Proof.
  intros H12 H23 a. specialize (H12 a). specialize (H23 a).
  destruct (h1 !! a) as [[fields|]|].
  - destruct H12 as (fields2 & H2 & Hkeys2 & Hid2). rewrite H2 in H23.
    destruct H23 as (fields3 & H3 & Hkeys3 & Hid3).
    exists fields3. split; [done |]. split.
    + intros key Hkey. by rewrite Hkeys3, Hkeys2.
    + intros Hsome. specialize (Hid2 Hsome). subst fields2. by apply Hid3.
  - by rewrite H12 in H23.
  - by rewrite H12 in H23.
Qed.

Lemma assign_id_only_ids_added (rand : nat → string) (w : world) (doc : addr) :
  only_ids_added (fst w) (fst (snd (assign_id rand w doc))).
Proof.
  destruct w as [h drawn]. unfold assign_id. simpl.
  destruct (h !! doc) as [[fields|]|] eqn:Hdoc; try apply only_ids_added_refl.
  case_decide as Hid; [| apply only_ids_added_refl]. simpl.
  intros a. destruct (decide (a = doc)) as [-> | Hne].
  - rewrite Hdoc, lookup_insert_eq. eexists. split; [done |]. split.
    + intros key Hkey. by rewrite lookup_insert_ne.
    + rewrite Hid. by intros [? ?].
  - rewrite lookup_insert_ne by done.
    destruct (h !! a) as [[fields'|]|]; try done. by exists fields'.
Qed.

Lemma assign_ids_only_ids_added (rand : nat → string) (docs : list addr) :
  ∀ w, only_ids_added (fst w) (fst (snd (assign_ids rand w docs))).
Proof.
  induction docs as [| doc rest IH]; intros w; simpl; [apply only_ids_added_refl |].
  pose proof (assign_id_only_ids_added rand w doc) as Hone.
  destruct (assign_id rand w doc) as [[[]|e] w1]; [| done].
  eapply only_ids_added_trans; [exact Hone | apply IH].
Qed.

(** X14.  Whatever the outcome, [search] and [add_document] of the retriever
    change the documents in one way only: a dictionary without an [id] gets
    one.  Without a reranking function [search] changes nothing.  The
    indexes and the reranking function read the documents and do not write
    them, as those of this file do. *)
Theorem retriever_only_adds_missing_ids (rand : nat → string) (w : world) (self : t) :
  (∀ q k k_rrf,
     only_ids_added (fst w) (fst (fst (snd (search rand w self q k k_rrf))))
     ∧ (_reranker_fn self = None → fst (snd (search rand w self q k k_rrf)) = w))
  ∧ (∀ document,
       only_ids_added (fst w) (fst (fst (snd (add_document rand w self document))))).
Proof.
  split.
  - intros q k k_rrf. unfold search.
    destruct q as [query_text | |]; [| split; [apply only_ids_added_refl | done] ..].
    case_decide; [split; [apply only_ids_added_refl | done] |].
    case_decide; [split; [apply only_ids_added_refl | done] |].
    destruct (search_all _ _ _) as [[all_results|e] indexes];
      [| split; [apply only_ids_added_refl | done]].
    destruct (_reranker_fn self) as [reranker_fn|];
      [| split; [apply only_ids_added_refl | done]].
    split; [| done]. unfold rerank.
    set (candidates := fuse _ _ _ _).
    pose proof (assign_ids_only_ids_added rand (map fst candidates) w) as Hids.
    destruct (assign_ids rand w (map fst candidates)) as [[[]|e] w']; [| done].
    destruct (for_each _ _) as [ids|]; [| done].
    by destruct (reranker_fn _ _ _ _).
  - intros document. unfold add_document.
    pose proof (assign_id_only_ids_added rand w document) as Hone.
    destruct (assign_id rand w document) as [[[]|e] w']; [| done].
    by destruct (add_to_each _ _ _).
Qed.

(** X15.  The retriever hands a document, or a batch, to its indexes in
    order and stops at the first index that raises: the indexes before it
    have taken the call, the failing one is left as its own call left it,
    and the indexes after it are never called. *)
Theorem retriever_stops_at_first_failing_index (h : heap) (pre post : list index)
    (ix : index) (e : exn) :
  (∀ document,
     Forall (λ ix', fst (@index_add_document _ (index_ops ix') h (index_state ix') document)
                    = Ok ()) pre →
     fst (@index_add_document _ (index_ops ix) h (index_state ix) document) = Raise e →
     add_to_each h (pre ++ ix :: post) document
     = (Raise e, (index_after_add_document h document <$> pre)
                 ++ index_after_add_document h document ix :: post))
  ∧ (∀ docs,
       Forall (λ ix', fst (@index_add_documents _ (index_ops ix') h (index_state ix') docs)
                      = Ok ()) pre →
       fst (@index_add_documents _ (index_ops ix) h (index_state ix) docs) = Raise e →
       add_batch_to_each h (pre ++ ix :: post) docs
       = (Raise e, (index_after_add_documents h docs <$> pre)
                   ++ index_after_add_documents h docs ix :: post)).
Proof.
  split.
  - intros document Hpre Hix. induction Hpre as [| ix' pre Hok _ IH]; simpl.
    + unfold index_after_add_document.
      destruct (index_add_document h (index_state ix) document) as [r st].
      simpl in *. by subst.
    + unfold index_after_add_document at 1.
      destruct (index_add_document h (index_state ix') document) as [r st].
      simpl in *. subst. by rewrite IH.
  - intros docs Hpre Hix. induction Hpre as [| ix' pre Hok _ IH]; simpl.
    + unfold index_after_add_documents.
      destruct (index_add_documents h (index_state ix) docs) as [r st].
      simpl in *. by subst.
    + unfold index_after_add_documents at 1.
      destruct (index_add_documents h (index_state ix') docs) as [r st].
      simpl in *. subst. by rewrite IH.
Qed.

Lemma retriever_only_adds_missing_ids_witness :
  let h : heap := {[ 0%nat := ODict {[ "content" := VStr "text" ]} ]} in
  let self := mk [constant_index [(0%nat, 0.5%R)]] None in
  fst (snd (search (λ _, "id") (h, 0%nat) self (QText "query") 1 60)) = (h, 0%nat).
Proof.
  intros h self.
  destruct (retriever_only_adds_missing_ids (λ _, "id") (h, 0%nat) self) as [Hsearch _].
  by apply (Hsearch (QText "query") 1%Z 60%Z).
Defined.

Lemma retriever_stops_at_first_failing_index_witness :
  let h : heap := {[ 0%nat := ODict {[ "content" := VStr "text" ]} ]} in
  let lexical := Index _ BM25Index_SearchIndex (BM25Index.__init__ 1.5 0.75 None) in
  let dense := Index _ VectorIndex_SearchIndex (VectorIndex.mk [] [] None "cosine" None) in
  fst (add_to_each h [lexical; dense] 0%nat) = Raise ValueError
  ∧ snd (add_to_each h [lexical; dense] 0%nat)
    = [index_after_add_document h 0%nat lexical; dense].
Proof.
  intros h lexical dense.
  destruct (retriever_stops_at_first_failing_index h [lexical] [] dense ValueError)
    as [Hone _].
  change [lexical; dense] with ([lexical] ++ [dense]).
  rewrite (Hone 0%nat).
  - done.
  - by repeat constructor.
  - reflexivity.
Defined.

End RetrieverEffects.

(** ** The retriever: ties *)

Section FusionOrder.
Import Retriever.
Local Open Scope R_scope.







End FusionOrder.

(** ** The retriever over a lexical and a dense index *)

Section Hybrid.
Import Retriever.
Local Open Scope R_scope.





End Hybrid.

(** ** [chunk_by_section] *)

Section Chunks.

Lemma append_cons (c : ascii) (s1 s2 : string) : String c s1 +:+ s2 = String c (s1 +:+ s2).
Proof. done. Qed.

Lemma append_assoc (s1 s2 s3 : string) : (s1 +:+ s2) +:+ s3 = s1 +:+ (s2 +:+ s3).
Proof.
  induction s1 as [| c s1 IH]; [done |]. rewrite !append_cons. by f_equal.
Qed.

Lemma append_length (s1 s2 : string) :
  String.length (s1 +:+ s2) = (String.length s1 + String.length s2)%nat.
Proof.
  induction s1 as [| c s1 IH]; [done |]. rewrite append_cons. simpl. by rewrite IH.
Qed.

Lemma prefix_append (s rest : string) : String.prefix s (s +:+ rest) = true.
Proof.
  induction s as [| c s IH]; [by destruct rest |].
  rewrite append_cons. simpl. destruct (Ascii.ascii_dec c c); [done | congruence].
Qed.

Lemma prefix_split (s text : string) :
  String.prefix s text = true → ∃ rest, text = s +:+ rest.
Proof.
  revert text. induction s as [| c s IH]; intros text.
  - intros _. by exists text.
  - destruct text as [| c' text]; simpl; [done |].
    destruct (Ascii.ascii_dec c c') as [<- |]; [| done].
    intros [rest ->]%IH. by exists rest.
Qed.

Lemma split_on_skip (delimiter skipped rest : string) :
  split_on delimiter (String.length skipped) (skipped +:+ rest) = split_on delimiter 0 rest.
Proof.
  induction skipped as [| c skipped IH]; [done |].
  rewrite append_cons. simpl. done.
Qed.

Lemma concat_cons_char (sep : string) (c : ascii) (chunk : string) (chunks : list string) :
  String.concat sep (String c chunk :: chunks) = String c (String.concat sep (chunk :: chunks)).
Proof. by destruct chunks. Qed.

(** What [split_on] returns for a delimiter of at least one character:
    chunks that joined by the delimiter give the text back, the first of
    them a prefix of the text, and none holding the delimiter. *)
Lemma split_on_spec (d : ascii) (tail : string) (n : nat) :
  ∀ text, (String.length text <= n)%nat →
    let delimiter := String d tail in
    let '(chunk, chunks) := split_on delimiter 0 text in
    String.concat delimiter (chunk :: chunks) = text
    ∧ (∃ rest, text = chunk +:+ rest)
    ∧ ∀ piece, piece ∈ chunk :: chunks →
        ∀ pre post, piece ≠ pre +:+ delimiter +:+ post.
Proof.
  induction n as [| n IH]; intros text Hlen delimiter.
  - destruct text; [| simpl in Hlen; lia]. simpl.
    split; [done |]. split; [by exists EmptyString |].
    intros piece Hin%list_elem_of_singleton pre post Heq. subst piece.
    destruct pre; discriminate.
  - destruct text as [| c rest].
    { simpl. split; [done |]. split; [by exists EmptyString |].
      intros piece Hin%list_elem_of_singleton pre post Heq. subst piece.
      destruct pre; discriminate. }
    cbn [split_on].
    destruct (String.prefix delimiter (String c rest)) eqn:Hprefix.
    + destruct (prefix_split _ _ Hprefix) as [rest' Hrest].
      change (String c rest = String d (tail +:+ rest')) in Hrest.
      injection Hrest as -> ->.
      replace (String.length delimiter - 1)%nat with (String.length tail)
        by (simpl; lia).
      rewrite split_on_skip.
      assert (Hshorter : (String.length rest' <= n)%nat).
      { simpl in Hlen. rewrite append_length in Hlen. lia. }
      specialize (IH rest' Hshorter). cbv zeta in IH.
      fold delimiter in IH.
      destruct (split_on delimiter 0 rest') as [chunk chunks].
      destruct IH as (Hjoin & _ & Hpieces).
      split; [| split].
      * change (String.concat delimiter (EmptyString :: chunk :: chunks))
          with (EmptyString +:+ delimiter +:+ String.concat delimiter (chunk :: chunks)).
        by rewrite Hjoin.
      * by eexists.
      * intros piece Hin pre post Heq. apply elem_of_cons in Hin as [-> | Hin].
        -- destruct pre; discriminate.
        -- by apply (Hpieces piece Hin pre post).
    + assert (Hshorter : (String.length rest <= n)%nat) by (simpl in Hlen; lia).
      specialize (IH rest Hshorter). cbv zeta in IH. fold delimiter in IH.
      destruct (split_on delimiter 0 rest) as [chunk chunks].
      destruct IH as (Hjoin & [rest' Hchunk] & Hpieces).
      split; [| split].
      * by rewrite concat_cons_char, Hjoin.
      * exists rest'. by rewrite Hchunk.
      * intros piece Hin pre post Heq. apply elem_of_cons in Hin as [-> | Hin].
        -- destruct pre as [| c' pre].
           ++ change (EmptyString +:+ delimiter +:+ post) with (delimiter +:+ post) in Heq.
              rewrite Hchunk, <- append_cons, Heq, append_assoc, prefix_append in Hprefix.
              discriminate.
           ++ rewrite append_cons in Heq. injection Heq as _ Heq.
              apply (Hpieces chunk (list_elem_of_here _ _) pre post Heq).
        -- apply (Hpieces piece (list_elem_of_further _ _ _ Hin) pre post Heq).
Qed.

(** X18.  Joining the chunks of [chunk_by_section] with the delimiter gives
    the text back: chunking loses nothing but the delimiters it cut at.
    There is always at least one chunk, and a text without the delimiter is
    its only chunk. *)
Theorem chunk_by_section_round_trip (document_text : string) :
  String.concat section_delimiter (chunk_by_section document_text) = document_text
  ∧ chunk_by_section document_text ≠ []
  ∧ ((∀ pre post, document_text ≠ pre +:+ section_delimiter +:+ post) →
     chunk_by_section document_text = [document_text]).
Proof.
  unfold chunk_by_section.
  pose proof (split_on_spec "010"%char "--------------------------------"
                (String.length document_text) document_text (le_n _)) as Hspec.
  cbv zeta in Hspec. fold section_delimiter in Hspec.
  destruct (split_on section_delimiter 0 document_text) as [chunk chunks].
  destruct Hspec as (Hjoin & _). split; [done |]. split; [done |].
  intros Hnone. destruct chunks as [| second chunks].
  - simpl in Hjoin. by rewrite Hjoin.
  - exfalso. apply (Hnone chunk (String.concat section_delimiter (second :: chunks))).
    by rewrite <- Hjoin.
Qed.

Lemma chunk_by_section_round_trip_witness :
  chunk_by_section "one section" = ["one section"].
Proof.
  apply (chunk_by_section_round_trip "one section").
  intros pre post Heq. apply (f_equal String.length) in Heq.
  rewrite !append_length in Heq.
  change (String.length section_delimiter) with 33%nat in Heq. simpl in Heq. lia.
Defined.

(** X19.  No chunk of [chunk_by_section] holds the delimiter. *)
Theorem chunks_hold_no_delimiter (document_text chunk : string) :
  chunk ∈ chunk_by_section document_text →
  ∀ pre post, chunk ≠ pre +:+ section_delimiter +:+ post.
Proof.
  unfold chunk_by_section.
  pose proof (split_on_spec "010"%char "--------------------------------"
                (String.length document_text) document_text (le_n _)) as Hspec.
  cbv zeta in Hspec. fold section_delimiter in Hspec.
  destruct (split_on section_delimiter 0 document_text) as [first chunks].
  destruct Hspec as (_ & _ & Hpieces). apply Hpieces.
Qed.

Lemma chunks_hold_no_delimiter_witness :
  "a" ∈ chunk_by_section ("a" +:+ section_delimiter +:+ "b")
  ∧ ∀ pre post, "a" ≠ pre +:+ section_delimiter +:+ post.
Proof.
  assert (Hin : "a" ∈ chunk_by_section ("a" +:+ section_delimiter +:+ "b")).
  { vm_compute. left. }
  split; [exact Hin |].
  exact (chunks_hold_no_delimiter _ _ Hin).
Defined.

End Chunks.
